(** * Move-evaluation harness: win-rate extraction, simulator invocation,
      board overlay and result aggregation

    Shallow embedding of [evaluate_moves.py] (variant A, index mode) and
    [evaluate_moves_2.py] (variant B, file mode).

    Conventions of the embedding:
    - a Python [str] is a [string]; each [ascii] is read as the code point
      of the same number, so texts range over U+0000..U+00FF;
    - a Python [float] is a primitive binary64 [float];
    - [re] patterns are values of the type [Re.re], run by a backtracking
      matcher with Python's priority order (leftmost start, greedy
      quantifiers first, lazy ones last);
    - a call that can raise returns a [result]. *)

From Stdlib Require Import ZArith NArith String Ascii List Bool Lia DecimalString.
From Stdlib Require Import PrimFloat SpecFloat FloatOps.
From Stdlib Require DecimalPos DecimalZ.
From stdpp Require Import gmap strings.

Set Warnings "-inexact-float".
Local Open Scope string_scope.
#[local] Arguments String.append !s1 s2 : simpl nomatch.

(** ** Results of calls that may raise *)

Inductive result (A : Type) : Type :=
| Returned (a : A)
| Raised (exn : string).
Arguments Returned {A} a.
Arguments Raised {A} exn.

(** ** Characters (code points below 256) *)

Module Chr.

Definition code (c : ascii) : N := N_of_ascii c.

Definition between (lo hi : N) (c : ascii) : bool :=
  ((lo <=? code c) && (code c <=? hi))%N.

(** [str.isspace] on one code point, which is what [\s] tests:
    TAB..CR, FS..US, SPACE, NEL and NBSP. *)
Definition is_space (c : ascii) : bool :=
  between 9 13 c || between 28 32 c || (code c =? 133)%N || (code c =? 160)%N.

(** [\d]: the decimal digits; below 256 these are 0..9 only. *)
Definition is_digit (c : ascii) : bool := between 48 57 c.

Definition is_upper (c : ascii) : bool :=
  between 65 90 c || between 192 214 c || between 216 222 c.

Definition is_alpha (c : ascii) : bool :=
  between 65 90 c || between 97 122 c
  || (code c =? 170)%N || (code c =? 181)%N || (code c =? 186)%N
  || between 192 214 c || between 216 246 c || between 248 255 c.

(** [\w]: alphanumeric (alphabetic, decimal, digit or numeric) or '_'. *)
Definition is_word (c : ascii) : bool :=
  is_alpha c || is_digit c || (code c =? 95)%N
  || (code c =? 178)%N || (code c =? 179)%N || (code c =? 185)%N
  || between 188 190 c.

(** Simple lower-casing, used by [re.IGNORECASE]. *)
Definition lower (c : ascii) : ascii :=
  if is_upper c then ascii_of_N (code c + 32) else c.

(** The line boundaries of [str.splitlines] other than CR LF:
    LF, VT, FF, CR, FS, GS, RS and NEL. *)
Definition is_linebreak (c : ascii) : bool :=
  between 10 13 c || between 28 30 c || (code c =? 133)%N.

Definition CR : ascii := ascii_of_N 13.
Definition LF : ascii := ascii_of_N 10.

End Chr.

(** ** Regular expressions

    The fragment of [re] syntax that the four patterns of the program use.
    Repetition is only ever applied to a single character class, and there
    is one capturing group. *)

Module Re.

Inductive cls : Type :=
| Space                 (* \s *)
| Digit                 (* \d *)
| Dot                   (* .  *)
| OneOf (s : string).   (* [...] *)

Inductive re : Type :=
| Eps
| Lit (c : ascii)       (* a literal character *)
| Cls (k : cls)         (* one character of a class *)
| Cat (a b : re)        (* a b *)
| Opt (a : re)          (* (?:a)?  greedy *)
| Star (k : cls)        (* k*      greedy *)
| Plus (k : cls)        (* k+      greedy *)
| StarLazy (k : cls)    (* k*?     lazy *)
| Grp (a : re)          (* (a)     capturing group 1 *)
| Wb.                   (* \b *)

Record flags : Type := { ignorecase : bool; dotall : bool }.

Definition I : flags := {| ignorecase := true; dotall := false |}.
Definition I_S : flags := {| ignorecase := true; dotall := true |}.

Definition eq_char (f : flags) (c d : ascii) : bool :=
  if ignorecase f then Ascii.eqb (Chr.lower c) (Chr.lower d) else Ascii.eqb c d.

Fixpoint one_of (f : flags) (s : string) (d : ascii) : bool :=
  match s with
  | EmptyString => false
  | String c s' => eq_char f c d || one_of f s' d
  end.

Definition mem (f : flags) (k : cls) (d : ascii) : bool :=
  match k with
  | Space => Chr.is_space d
  | Digit => Chr.is_digit d
  | Dot => dotall f || negb (Ascii.eqb d Chr.LF)
  | OneOf s => one_of f s d
  end.

(** [lits s]: the characters of [s] one after the other. *)
Fixpoint lits (s : string) : re :=
  match s with
  | EmptyString => Eps
  | String c s' => Cat (Lit c) (lits s')
  end.

(** [\b]: exactly one of the characters around the position is a word
    character (the ends of the text count as non-word). *)
Definition word_before (prev : option ascii) : bool :=
  match prev with Some c => Chr.is_word c | None => false end.

Definition word_after (s : string) : bool :=
  match s with String c _ => Chr.is_word c | EmptyString => false end.

Definition at_boundary (prev : option ascii) (s : string) : bool :=
  xorb (word_before prev) (word_after s).

(** The text consumed between a position [s] and a later position [s']. *)
Definition consumed (s s' : string) : string :=
  substring 0 (String.length s - String.length s') s.

Section Matcher.
Context {A : Type}.
Variable f : flags.

(** A position is the character before it and the text after it; a
    continuation receives the position reached and the capture. *)
Definition cont : Type := option ascii -> string -> option A.

(** Greedy repetition: take as many characters as possible, give one
    back each time the rest of the pattern fails. *)
Fixpoint star_greedy (k : cls) (prev : option ascii) (s : string) (kont : cont) : option A :=
  match s with
  | String c s' =>
      if mem f k c then
        match star_greedy k (Some c) s' kont with
        | Some r => Some r
        | None => kont prev s
        end
      else kont prev s
  | EmptyString => kont prev s
  end.

(** Lazy repetition: try the rest of the pattern first, take one more
    character each time it fails. *)
Fixpoint star_lazy (k : cls) (prev : option ascii) (s : string) (kont : cont) : option A :=
  match kont prev s with
  | Some r => Some r
  | None =>
      match s with
      | String c s' => if mem f k c then star_lazy k (Some c) s' kont else None
      | EmptyString => None
      end
  end.

Fixpoint exec (r : re) (prev : option ascii) (s : string) (g : option string)
    (kont : option ascii -> string -> option string -> option A) : option A :=
  match r with
  | Eps => kont prev s g
  | Lit c =>
      match s with
      | String d s' => if eq_char f c d then kont (Some d) s' g else None
      | EmptyString => None
      end
  | Cls k =>
      match s with
      | String d s' => if mem f k d then kont (Some d) s' g else None
      | EmptyString => None
      end
  | Cat a b => exec a prev s g (fun prev' s' g' => exec b prev' s' g' kont)
  | Opt a =>
      match exec a prev s g kont with
      | Some x => Some x
      | None => kont prev s g
      end
  | Star k => star_greedy k prev s (fun prev' s' => kont prev' s' g)
  | Plus k =>
      match s with
      | String d s' =>
          if mem f k d then star_greedy k (Some d) s' (fun prev' s' => kont prev' s' g)
          else None
      | EmptyString => None
      end
  | StarLazy k => star_lazy k prev s (fun prev' s' => kont prev' s' g)
  | Grp a => exec a prev s g (fun prev' s' _ => kont prev' s' (Some (consumed s s')))
  | Wb => if at_boundary prev s then kont prev s g else None
  end.
End Matcher.

(** A match object; [group1] is [m.group(1)], [None] when the group took
    no part in the match. *)
Record match_obj : Type := { group1 : option string }.

Definition accept : option ascii -> string -> option string -> option match_obj :=
  fun _ _ g => Some {| group1 := g |}.

(** [pattern.search(text)]: the first match at the leftmost position that
    has one. *)
Fixpoint search_from (f : flags) (r : re) (prev : option ascii) (s : string) : option match_obj :=
  match exec f r prev s None accept with
  | Some m => Some m
  | None =>
      match s with
      | String c s' => search_from f r (Some c) s'
      | EmptyString => None
      end
  end.

Definition search (f : flags) (r : re) (text : string) : option match_obj :=
  search_from f r None text.

End Re.

Import Re.
Infix "⋅" := Cat (at level 41, right associativity).

(** ** Builtins: [str.replace], [str.splitlines], [str(int)], [float(str)] *)

(** [text.replace(old, new)] for one-character [old] and [new]. *)
Fixpoint replace_char (old new : ascii) (s : string) : string :=
  match s with
  | EmptyString => EmptyString
  | String c s' => String (if Ascii.eqb c old then new else c) (replace_char old new s')
  end.

(** [text.splitlines()]: CR LF is one boundary, a final boundary opens no
    empty line. [cur] is the line read so far. *)
Fixpoint splitlines_from (cur : string) (s : string) : list string :=
  match s with
  | EmptyString => if String.eqb cur "" then [] else [cur]
  | String c s' =>
      if Ascii.eqb c Chr.CR then
        match s' with
        | String d s'' =>
            if Ascii.eqb d Chr.LF then cur :: splitlines_from "" s''
            else cur :: splitlines_from "" s'
        | EmptyString => cur :: splitlines_from "" s'
        end
      else if Chr.is_linebreak c then cur :: splitlines_from "" s'
      else splitlines_from (cur +:+ String c "") s'
  end.

Definition splitlines (s : string) : list string := splitlines_from "" s.

(** [str(n)] for an [int]. *)
Definition str_of_int (n : Z) : string := NilZero.string_of_int (Z.to_int n).

Definition digit_val (c : ascii) : N := (Chr.code c - 48)%N.

Fixpoint all_digits (s : string) : bool :=
  match s with
  | EmptyString => true
  | String c s' => Chr.is_digit c && all_digits s'
  end.

Fixpoint digits_value (acc : N) (s : string) : N :=
  match s with
  | EmptyString => acc
  | String c s' => digits_value (10 * acc + digit_val c) s'
  end.

(** The binary64 nearest to [num / 10^k] (ties to even), as [float] does
    for a decimal numeral. *)
Definition float_of_ratio (num : N) (k : nat) : float :=
  match num with
  | N0 => PrimFloat.zero
  | Npos p =>
      SF2Prim (SFdiv prec emax (S754_finite false p 0)
                 (S754_finite false (Z.to_pos (10 ^ Z.of_nat k)) 0))
  end.

(** The integer part of a numeral and what follows its first '.', if any. *)
Fixpoint split_point (s : string) : string * option string :=
  match s with
  | EmptyString => (EmptyString, None)
  | String c s' =>
      if Ascii.eqb c "." then (EmptyString, Some s')
      else let '(i, fr) := split_point s' in (String c i, fr)
  end.

(** [float(s)] on the numerals [digits] and [digits.digits], the only
    texts group 1 of the patterns can hold. Other arguments are outside the
    model and are reported as a [ValueError]; a group that took no part in
    the match, [float(None)], is the [TypeError]. *)
Definition float_of_str (s : string) : result float :=
  match split_point s with
  | (i, None) =>
      if all_digits i && negb (String.eqb i "")
      then Returned (float_of_ratio (digits_value 0 i) 0)
      else Raised "ValueError"
  | (i, Some fr) =>
      if all_digits i && negb (String.eqb i "") && all_digits fr && negb (String.eqb fr "")
      then Returned (float_of_ratio (digits_value 0 (i +:+ fr)) (String.length fr))
      else Raised "ValueError"
  end.

Definition float_of_group (m : match_obj) : result float :=
  match group1 m with
  | Some s => float_of_str s
  | None => Raised "TypeError"
  end.

(** ** [parse_winrate] (identical in both variants) *)

(** [win percentage:?\s*[:=]?\s*(\d+(?:\.\d+)?)\s*%?] *)
Definition number : re := Grp (Plus Digit ⋅ Opt (Lit "." ⋅ Plus Digit)).

Definition WINRATE_PATTERNS_0 : re :=
  lits "win percentage" ⋅ Opt (Lit ":") ⋅ Star Space ⋅ Opt (Cls (OneOf ":=")) ⋅ Star Space
  ⋅ number ⋅ Star Space ⋅ Opt (Lit "%").

(** [win percentage\s*[:=]?\s*(\d+(?:\.\d+)?)\s*%?] *)
Definition win_re : re :=
  lits "win percentage" ⋅ Star Space ⋅ Opt (Cls (OneOf ":=")) ⋅ Star Space
  ⋅ number ⋅ Star Space ⋅ Opt (Lit "%").

(** [Player\s*{}\b] with the player number written in. *)
Definition line_player_re (player : Z) : re :=
  lits "Player" ⋅ Star Space ⋅ lits (str_of_int player) ⋅ Wb.

(** [Player\s*{}\b.*?win percentage\s*[:=]?\s*(\d+(?:\.\d+)?)\s*%?] *)
Definition combined_re (player : Z) : re :=
  lits "Player" ⋅ Star Space ⋅ lits (str_of_int player) ⋅ Wb ⋅ StarLazy Dot ⋅ win_re.

(** [val / 100.0 if val > 1.0 else val] *)
Definition normalize (val : float) : float :=
  if PrimFloat.ltb 1 val then PrimFloat.div val 100 else val.

Definition winrate_of_match (m : match_obj) : result (option float) :=
  match float_of_group m with
  | Returned val => Returned (Some (normalize val))
  | Raised e => Raised e
  end.

(** The loop over the lines: the first line that mentions the player and
    holds a win percentage decides. *)
Fixpoint scan_lines (player : Z) (lines : list string) : option match_obj :=
  match lines with
  | [] => None
  | line :: rest =>
      match search I (line_player_re player) line with
      | Some _ =>
          match search I win_re line with
          | Some m => Some m
          | None => scan_lines player rest
          end
      | None => scan_lines player rest
      end
  end.

Definition parse_winrate (text : string) (player : Z) : result (option float) :=
  if String.eqb text "" then Returned None
  else
    let text_norm := replace_char "," "." text in
    match scan_lines player (splitlines text_norm) with
    | Some m => winrate_of_match m
    | None =>
        match search I_S (combined_re player) text_norm with
        | Some combined => winrate_of_match combined
        | None =>
            match search I WINRATE_PATTERNS_0 text_norm with
            | Some m => winrate_of_match m
            | None => Returned None
            end
        end
    end.

(** ** The external simulator and [subprocess.run] *)

(** What a started command does: it ends after some seconds with its
    combined output, it never ends, or it cannot be started (or its run
    fails in another way) with a description. *)
Inductive proc : Type :=
| Exits (seconds : Z) (stdout : string)
| Hangs
| SpawnFails (description : string).

(** How [subprocess.run(cmd, ..., timeout=t, check=False)] ends.
    Without a timeout the call waits for the process, however long. *)
Inductive run_outcome : Type :=
| Completed (stdout : string)
| TimeoutExpired
| OtherException (description : string)
| NeverReturns.

Definition subprocess_run (p : proc) (timeout : option Z) : run_outcome :=
  match p, timeout with
  | SpawnFails e, _ => OtherException e
  | Exits t out, None => Completed out
  | Exits t out, Some limit => if (limit <? t)%Z then TimeoutExpired else Completed out
  | Hangs, None => NeverReturns
  | Hangs, Some _ => TimeoutExpired
  end.

(** Seconds the caller stays blocked in [subprocess.run]; [None] is for
    ever. *)
Definition blocking_wait (p : proc) (timeout : option Z) : option Z :=
  match p, timeout with
  | SpawnFails _, _ => Some 0%Z
  | Exits t _, None => Some t
  | Exits t _, Some limit => Some (Z.min t limit)
  | Hangs, None => None
  | Hangs, Some limit => Some limit
  end.

(** The [try] block of [run_simulator]: what [out] is bound to, if the
    call returns at all. *)
Definition captured_output (o : run_outcome) : option string :=
  match o with
  | Completed out => Some out
  | TimeoutExpired => Some "SIMULATOR_TIMEOUT"
  | OtherException e => Some ("SIMULATOR_ERROR: " +:+ e)
  | NeverReturns => None
  end.

(** ** Arrays *)

(** A numpy array of integers: its shape and its cells in row-major
    order. *)
Record ndarray : Type := { shape : list nat; data : list Z }.

(** [np.array(pm)] for a list of rows. *)
Definition np_array (pm : list (list Z)) : ndarray :=
  {| shape := match pm with [] => [0] | r :: _ => [List.length pm; List.length r] end;
     data := List.concat pm |}.

Definition ncols (a : ndarray) : nat := List.nth 1 (shape a) 0.

(** [a[r, c]] *)
Definition at_rc (a : ndarray) (r c : nat) : Z := List.nth (r * ncols a + c) (data a) 0%Z.

(** The flat positions of the non-zero cells, in increasing order. *)
Fixpoint nonzero_from (k : nat) (l : list Z) : list nat :=
  match l with
  | [] => []
  | x :: l' => if (x =? 0)%Z then nonzero_from (S k) l' else k :: nonzero_from (S k) l'
  end.

(** [np.argwhere(a != 0)] for a 2-dimensional [a]: the (row, column)
    pairs of the non-zero cells in row-major order. *)
Definition argwhere_nonzero (a : ndarray) : list (nat * nat) :=
  List.map (fun k => (k / ncols a, k mod ncols a)) (nonzero_from 0 (data a)).

(** [np.any(board[rows, cols] == 3)] *)
Definition touches_obstacle (board : ndarray) (nz : list (nat * nat)) : bool :=
  List.existsb (fun rc => (at_rc board (fst rc) (snd rc) =? 3)%Z) nz.

Fixpoint where_nonzero (p b : list Z) : list Z :=
  match p, b with
  | x :: p', y :: b' => (if (x =? 0)%Z then y else x) :: where_nonzero p' b'
  | _, _ => []
  end.

(** [np.where(pm_arr != 0, pm_arr, board)] for arrays of one shape. *)
Definition overlay (pm_arr board : ndarray) : ndarray :=
  {| shape := shape pm_arr; data := where_nonzero (data pm_arr) (data board) |}.

(** ** Text of the messages and names *)

Definition str_of_nat (n : nat) : string := str_of_int (Z.of_nat n).

Fixpoint join (sep : string) (l : list string) : string :=
  match l with
  | [] => ""
  | [x] => x
  | x :: l' => x +:+ sep +:+ join sep l'
  end.

(** [repr] of a shape tuple: [()], [(3,)], [(3, 3)]. *)
Definition repr_shape (s : list nat) : string :=
  match s with
  | [n] => "(" +:+ str_of_nat n +:+ ",)"
  | _ => "(" +:+ join ", " (List.map str_of_nat s) +:+ ")"
  end.

(** [folder / name] *)
Definition path_join (folder name : string) : string := folder +:+ "/" +:+ name.

(** ** Variant B: [evaluate_moves_2.py] *)

(** A cell of a results row, and what a written file holds: the rows
  given to a [csv.writer], or the array given to [np.savetxt]. *)
Inductive field : Type :=
| FStr (s : string)
| FInt (n : Z)
| FFloat (x : float).

Inductive content : Type :=
| Table (rows : list (list field))
| Grid (a : ndarray)
| Text (s : string).

Record world : Type := {
files : gmap string content;
console : list string;                        (* lines printed *)
invocations : list (list string * option Z)   (* commands run, with the timeout given *)
}.

Definition print (line : string) (w : world) : world :=
{| files := files w; console := console w ++ [line]; invocations := invocations w |}.

Definition write_file (path : string) (c : content) (w : world) : world :=
{| files := <[path := c]> (files w); console := console w; invocations := invocations w |}.

Definition log_invocation (cmd : list string) (timeout : option Z) (w : world) : world :=
{| files := files w; console := console w; invocations := invocations w ++ [(cmd, timeout)] |}.

(** [writer.writerow(row)] on the file opened at [path]. *)
Definition writerow (path : string) (r : list field) (w : world) : world :=
match files w !! path with
| Some (Table rows) => write_file path (Table (rows ++ [r])) w
| _ => write_file path (Table [r]) w
end.

Inductive status : Type :=
| Done
| Crashed (exn : string).

(** A board file found by [glob("*.csv")], with what [np.loadtxt] reads
  from it. *)
Record src_csv : Type := { name : string; stem : string; board : ndarray }.

Record args_B : Type := {
input_dir : string;
output_dir : string;
sim_cmd : string;
results_file : string;
timeout : Z
}.

Definition header_B : list field :=
[FStr "source_csv"; FStr "move_idx"; FStr "dest_row"; FStr "dest_col";
 FStr "winrate"; FStr "sim_stdout_snippet"; FStr "modified_csv_path"].

(** [sim_out[:400].replace("\n", " ") + ("..." if len(sim_out) > 400 else "")] *)
Definition snippet_of (sim_out : string) : string :=
replace_char Chr.LF " " (substring 0 400 sim_out)
+:+ (if (400 <? String.length sim_out)%nat then "..." else "").

(** [f"{src_csv.stem}_move{mi}.csv"] *)
Definition out_name (stem : string) (mi : nat) : string :=
stem +:+ "_move" +:+ str_of_nat mi +:+ ".csv".

Definition results_path_of (out_dir results : string) : string :=
path_join out_dir (if String.eqb results "" then "move_evals.csv" else results).

(** [shlex.split(template.format(...))]; [format_template] and
    [shlex_split] stand for the two library calls, which can raise. *)
Definition build_cmd (format_template : string -> string -> result string)
    (shlex_split : string -> result (list string)) (template value : string)
    : result (list string) :=
  match format_template template value with
  | Returned s => shlex_split s
  | Raised e => Raised e
  end.

(** ** Variant B: [evaluate_moves_2.py] *)

Module VariantB.
Section Harness.

(** The move catalog [opening_moves.possible_moves]: each move is a list
    of rows. *)
Variable possible_moves : list (list (list Z)).

(** [template.format(input=value)] and [shlex.split]. *)
Variable format_template : string -> string -> result string.
Variable shlex_split : string -> result (list string).

(** The external simulator: what the command does, given the files it
    can read. It writes no file of its own. *)
Variable simulator : list string -> gmap string content -> proc.

(** The timeout is handed to [subprocess.run]. *)
Definition run_simulator (sim_cmd_template : string) (input_path : string)
    (timeout : Z) (w : world) : result string * world :=
  match build_cmd format_template shlex_split sim_cmd_template input_path with
  | Raised e => (Raised e, w)
  | Returned cmd =>
      let w' := log_invocation cmd (Some timeout) w in
      match captured_output (subprocess_run (simulator cmd (files w)) (Some timeout)) with
      | Some out => (Returned out, w')
      | None => (Raised "unreachable", w')
      end
  end.

(** The body of the inner loop of [main], for one board and one move. *)
Definition process_pair (a : args_B) (results_path : string) (src : src_csv)
    (mi : nat) (pm : list (list Z)) (w : world) : status * world :=
  let pm_arr := np_array pm in
  if negb (bool_decide (shape pm_arr = shape (board src))) then
    (Done, print ("skipping " +:+ name src +:+ " move " +:+ str_of_nat mi
                  +:+ ": shape mismatch " +:+ repr_shape (shape pm_arr)
                  +:+ " vs " +:+ repr_shape (shape (board src))) w)
  else
    let nz := argwhere_nonzero pm_arr in
    if touches_obstacle (board src) nz then
      (Done, print ("skipping " +:+ name src +:+ " move " +:+ str_of_nat mi
                    +:+ ": attempts to modify obstacle cell(s)") w)
    else
      let modified := overlay pm_arr (board src) in
      let out_path := path_join (output_dir a) (out_name (stem src) mi) in
      let w1 :=
        match files w !! out_path with
        | Some _ => print ("reusing existing modified csv: " +:+ out_name (stem src) mi) w
        | None => write_file out_path (Grid modified) w
        end in
      match run_simulator (sim_cmd a) out_path (timeout a) w1 with
      | (Raised e, w2) => (Crashed e, w2)
      | (Returned sim_out, w2) =>
          match parse_winrate sim_out 1 with
          | Raised e => (Crashed e, w2)
          | Returned win =>
              let snippet := snippet_of sim_out in
              let '(dest_row, dest_col) :=
                match nz with
                | (r, c) :: _ => (Z.of_nat r, Z.of_nat c)
                | [] => ((-1)%Z, (-1)%Z)
                end in
              (Done,
               writerow results_path
                 [FStr (name src); FInt (Z.of_nat mi); FInt dest_row; FInt dest_col;
                  match win with Some x => FFloat x | None => FStr "" end;
                  FStr ""; FStr out_path] w2)
          end
      end.

(** [for mi, pm in enumerate(possible_moves)], from index [mi] on. *)
Fixpoint for_moves (a : args_B) (results_path : string) (src : src_csv)
    (mi : nat) (pms : list (list (list Z))) (w : world) : status * world :=
  match pms with
  | [] => (Done, w)
  | pm :: rest =>
      match process_pair a results_path src mi pm w with
      | (Done, w') => for_moves a results_path src (S mi) rest w'
      | (Crashed e, w') => (Crashed e, w')
      end
  end.

(** [for src_csv in csv_files] *)
Fixpoint for_files (a : args_B) (results_path : string) (csv_files : list src_csv)
    (w : world) : status * world :=
  match csv_files with
  | [] => (Done, w)
  | src :: rest =>
      match for_moves a results_path src 0 possible_moves w with
      | (Done, w') => for_files a results_path rest w'
      | (Crashed e, w') => (Crashed e, w')
      end
  end.

(** [csv_files] is [sorted(input_folder.glob("*.csv"))], each file with
    the board read from it. Only files are modelled: the creation of the
    output folder and the optional [time.sleep] between two runs change
    nothing here. *)
Definition main (a : args_B) (csv_files : list src_csv) (w : world) : status * world :=
  let results_path := results_path_of (output_dir a) (results_file a) in
  match csv_files with
  | [] => (Done, print ("No CSV files found in " +:+ input_dir a) w)
  | _ :: _ =>
      let w0 := write_file results_path (Table []) w in
      let w1 := writerow results_path header_B w0 in
      for_files a results_path csv_files w1
  end.

End Harness.
End VariantB.

(** ** Variant A: [run_simulator] of [evaluate_moves.py] *)

Module VariantA.
Section Harness.

(** [template.format(move=value)] and [shlex.split]. *)
Variable format_template : string -> string -> result string.
Variable shlex_split : string -> result (list string).
Variable simulator : list string -> gmap string content -> proc.

(** The move index is written to [agents/move.txt]; the [timeout]
    argument is accepted, and [subprocess.run] is called without it. *)
Definition run_simulator (sim_cmd_template : string) (move_idx : nat)
    (timeout : Z) (w : world) : option (result string) * world :=
  match build_cmd format_template shlex_split sim_cmd_template (str_of_nat move_idx) with
  | Raised e => (Some (Raised e), w)
  | Returned cmd =>
      let w1 := write_file "agents/move.txt" (Text (str_of_nat move_idx)) w in
      let w2 := log_invocation cmd None w1 in
      match captured_output (subprocess_run (simulator cmd (files w1)) None) with
      | Some out => (Some (Returned out), w2)
      | None => (None, w2)
      end
  end.

(** The move catalog, and [str(win)] for a float. *)
Variable possible_moves : list (list (list Z)).
Variable str_of_float : float -> string.

(** The destinations named in the header, one for each of eight moves. *)
Definition moves : list (Z * Z) :=
  [(1, 0); (0, 1); (1, 1); (2, 0); (0, 2); (2, 1); (1, 2); (2, 2)]%Z.

(** A tuple of two integers as the [csv.writer] writes it: [(1, 0)]. *)
Definition str_of_pair (p : Z * Z) : string :=
  "(" +:+ str_of_int (fst p) +:+ ", " +:+ str_of_int (snd p) +:+ ")".

Record args : Type := {
  output_dir : string;
  sim_cmd : string;
  results_file : string;
  timeout : Z
}.

(** How a run ends: it returns, it raises, or it waits for ever. *)
Inductive outcome : Type :=
| Ended
| Raising (exn : string)
| Stuck.

(** [str(win)] in the printed line, and a win rate as a field of the
    row: [None] is written as the empty field. *)
Definition str_of_win (win : option float) : string :=
  match win with Some x => str_of_float x | None => "None" end.

Definition field_of_win (win : option float) : field :=
  match win with Some x => FFloat x | None => FStr "" end.

(** [results_path.open("a")]: a missing file is created empty, an
    existing one is kept. *)
Definition open_append (path : string) (w : world) : world :=
  match files w !! path with
  | Some _ => w
  | None => write_file path (Table []) w
  end.

(** [for mi, pm in enumerate(possible_moves)], from index [mi] on, with
    the win rates collected so far. *)
Fixpoint for_moves (a : args) (mi : nat) (pms : list (list (list Z)))
    (win_rates : list (option float)) (w : world)
    : outcome * list (option float) * world :=
  match pms with
  | [] => (Ended, win_rates, w)
  | pm :: rest =>
      match run_simulator (sim_cmd a) mi (timeout a) w with
      | (None, w1) => (Stuck, win_rates, w1)
      | (Some (Raised e), w1) => (Raising e, win_rates, w1)
      | (Some (Returned sim_out), w1) =>
          match parse_winrate sim_out 1 with
          | Raised e => (Raising e, win_rates, w1)
          | Returned win =>
              let win_rates' := (win_rates ++ [win])%list in
              match List.nth_error moves mi with
              | None => (Raising "IndexError", win_rates', w1)
              | Some (dest_row, dest_col) =>
                  for_moves a (S mi) rest win_rates'
                    (print ("move " +:+ str_of_nat mi +:+ ": dest (" +:+ str_of_int dest_row
                            +:+ "," +:+ str_of_int dest_col +:+ ") winrate="
                            +:+ str_of_win win) w1)
              end
          end
      end
  end.

(** The results file is opened for appending; the header is written when
    the file did not exist; the row of win rates is written after the last
    move. An exception leaves the [with] block without that row. The
    results file, when it exists, holds a table. *)
Definition main (a : args) (w : world) : outcome * world :=
  let results_path := results_path_of (output_dir a) (results_file a) in
  let file_exists := match files w !! results_path with Some _ => true | None => false end in
  let w0 := open_append results_path w in
  let w1 :=
    if file_exists then w0
    else writerow results_path (List.map (fun m => FStr (str_of_pair m)) moves) w0 in
  match for_moves a 0 possible_moves [] w1 with
  | (Ended, win_rates, w2) =>
      (Ended, writerow results_path (List.map field_of_win win_rates) w2)
  | (o, _, w2) => (o, w2)
  end.

End Harness.
End VariantA.

(** ** What a pattern matches

    The declarative reading of a pattern, against which the backtracking
    matcher is checked: [matches f r prev u rest g g'] says that [r]
    matches the text [u] when [prev] is the character before it and [rest]
    the text after it, and turns the capture [g] into [g']. *)

Fixpoint all_in (f : flags) (k : cls) (u : string) : bool :=
  match u with
  | EmptyString => true
  | String c u' => mem f k c && all_in f k u'
  end.

Fixpoint last_char (prev : option ascii) (u : string) : option ascii :=
  match u with
  | EmptyString => prev
  | String c u' => last_char (Some c) u'
  end.

Fixpoint matches (f : flags) (r : re) (prev : option ascii) (u rest : string)
    (g g' : option string) : Prop :=
  match r with
  | Eps => u = "" ∧ g' = g
  | Lit c => ∃ d, u = String d "" ∧ eq_char f c d = true ∧ g' = g
  | Cls k => ∃ d, u = String d "" ∧ mem f k d = true ∧ g' = g
  | Cat a b =>
      ∃ u1 u2 g1, u = u1 +:+ u2
        ∧ matches f a prev u1 (u2 +:+ rest) g g1
        ∧ matches f b (last_char prev u1) u2 rest g1 g'
  | Opt a => (u = "" ∧ g' = g) ∨ matches f a prev u rest g g'
  | Star k => all_in f k u = true ∧ g' = g
  | Plus k => u ≠ "" ∧ all_in f k u = true ∧ g' = g
  | StarLazy k => all_in f k u = true ∧ g' = g
  | Grp a => (∃ g1, matches f a prev u rest g g1) ∧ g' = Some u
  | Wb => u = "" ∧ at_boundary prev rest = true ∧ g' = g
  end.

(** [r] matches somewhere in [text], the character before [text] being
    [prev], and captures [g]. *)
Definition occurs_from (f : flags) (r : re) (prev : option ascii) (text : string)
    (g : option string) : Prop :=
  ∃ pre u post, text = pre +:+ (u +:+ post)
    ∧ matches f r (last_char prev pre) u post None g.

Definition occurs (f : flags) (r : re) (text : string) : Prop :=
  ∃ g, occurs_from f r None text g.

(** Patterns without [\b]: what they match does not depend on the text
    around. *)
Fixpoint context_free (r : re) : bool :=
  match r with
  | Wb => false
  | Cat a b => context_free a && context_free b
  | Opt a | Grp a => context_free a
  | _ => true
  end.

(** ** Notions used in the statements and proofs *)

(** [r] matches at the very start of [s]. *)
Definition starts_here (f : flags) (r : re) (prev : option ascii) (s : string) : Prop :=
  ∃ u rest g, s = u +:+ rest ∧ matches f r prev u rest None g.

Fixpoint dot_free (r : re) : bool :=
  match r with
  | Cls Dot | Star Dot | Plus Dot | StarLazy Dot => false
  | Cat a b => dot_free a && dot_free b
  | Opt a | Grp a => dot_free a
  | _ => true
  end.

(** [excludes f r c]: no text that [r] matches holds the character [c]. *)
Fixpoint excludes (f : flags) (r : re) (c : ascii) : bool :=
  match r with
  | Eps | Wb => true
  | Lit x => negb (eq_char f x c)
  | Cls k | Star k | Plus k | StarLazy k => negb (mem f k c)
  | Cat a b => excludes f a c && excludes f b c
  | Opt a | Grp a => excludes f a c
  end.

Fixpoint has_char (c : ascii) (u : string) : bool :=
  match u with
  | EmptyString => false
  | String d u' => Ascii.eqb d c || has_char c u'
  end.

(** What follows a prefix of a concatenation. *)
Definition has_tail (f : flags) (r b : re) : Prop :=
  ∀ prev u rest g g', matches f r prev u rest g g' →
    ∃ u1 u2 g1, u = u1 +:+ u2 ∧ matches f b (last_char prev u1) u2 rest g1 g'.

(** A match can be cut short after a prefix free of the character [c]. *)
Definition shortens (f : flags) (c : ascii) (r : re) : Prop :=
  ∀ prev u rest g g', matches f r prev u rest g g' →
    ∃ u1 u2 h, u = u1 +:+ u2 ∧ matches f r prev u1 (u2 +:+ rest) g h
      ∧ has_char c u1 = false.

Definition numeral (n : string) : Prop :=
  ∃ i, all_digits i = true ∧ i ≠ ""
    ∧ (n = i ∨ ∃ fr, all_digits fr = true ∧ fr ≠ "" ∧ n = i +:+ String "." fr).

Definition captures_numeral (f : flags) (r : re) : Prop :=
  ∀ prev u rest g g', matches f r prev u rest g g' → ∃ n, g' = Some n ∧ numeral n.

(** The numeral that decides, stage by stage: the first win percentage of
    the first line that mentions the player and has one; else the one that
    follows the first mention of the player; else the first one of the
    text. *)
Definition winrate_numeral (text_norm : string) (player : Z) (num : string) : Prop :=
  (∃ line, In line (splitlines text_norm)
      ∧ occurs I (line_player_re player) line
      ∧ occurs_from I win_re None line (Some num))
  ∨ occurs_from I_S (combined_re player) None text_norm (Some num)
  ∨ occurs_from I WINRATE_PATTERNS_0 None text_norm (Some num).

(** The data of an array fills its shape. *)
Definition well_formed (a : ndarray) : Prop :=
  List.length (data a) = List.fold_right Nat.mul 1%nat (shape a).

Definition is_table (c : option content) : Prop := ∃ rows, c = Some (Table rows).

(** ** Concrete inputs *)

Definition LF_s : string := String Chr.LF "".

Fixpoint strip_prefix (p s : string) : option string :=
  match p, s with
  | EmptyString, _ => Some s
  | String c p', String d s' => if Ascii.eqb c d then strip_prefix p' s' else None
  | String _ _, EmptyString => None
  end.

(** [fill field value 0 t]: [t] with each occurrence of [field] replaced
    by [value]; [skip] counts the characters of an occurrence still to
    pass over. *)
Fixpoint fill (field value : string) (skip : nat) (t : string) : string :=
  match t with
  | EmptyString => EmptyString
  | String c t' =>
      match skip with
      | S k => fill field value k t'
      | O =>
          match strip_prefix field t with
          | Some _ => value +:+ fill field value (String.length field - 1) t'
          | None => String c (fill field value 0 t')
          end
      end
  end.

(** [template.format(name=value)] for a template whose only braces are
    those of the replacement field [{name}]. *)
Definition format_field (name : string) (template value : string) : result string :=
  Returned (fill ("{" +:+ name +:+ "}") value 0 template).

Fixpoint split_spaces_from (cur : string) (s : string) : list string :=
  match s with
  | EmptyString => if String.eqb cur "" then [] else [cur]
  | String c s' =>
      if Ascii.eqb c " " then
        if String.eqb cur "" then split_spaces_from "" s'
        else cur :: split_spaces_from "" s'
      else split_spaces_from (cur +:+ String c "") s'
  end.

(** [shlex.split] for words without quotes or escapes, separated by
    spaces. *)
Definition split_spaces (s : string) : result (list string) :=
  Returned (split_spaces_from "" s).

Definition empty_world : world :=
  {| files := ∅; console := []; invocations := [] |}.

(** A catalog of one move, to row 1 and column 0 of a 3 x 3 board. *)
Definition one_move : list (list (list Z)) := [[[0; 0; 0]; [1; 0; 0]; [0; 0; 0]]%Z].

Definition empty_board : src_csv :=
  {| name := "b.csv"; stem := "b";
     board := {| shape := [3; 3]%nat; data := [0; 0; 0; 0; 0; 0; 0; 0; 0]%Z |} |}.

Definition blocked_board : src_csv :=
  {| name := "c.csv"; stem := "c";
     board := {| shape := [3; 3]%nat; data := [0; 0; 0; 3; 0; 0; 0; 0; 0]%Z |} |}.

Definition args_demo : args_B :=
  {| input_dir := "boards"; output_dir := "out";
     sim_cmd := "python simulator.py --board {input}";
     results_file := "move_evals.csv"; timeout := 60%Z |}.

(** A simulator that reports after [seconds] seconds, and one that never
    ends. *)
Definition sim_reports (seconds : Z) (out : string) : list string → gmap string content → proc :=
  fun _ _ => Exits seconds out.
Definition sim_hangs : list string → gmap string content → proc := fun _ _ => Hangs.

(** ** Notions of the further properties *)

(** [Player\s*{}] with the player number written in: the mention of a
    player without the closing [\b]. *)
Definition player_tag (player : Z) : re :=
  lits "Player" ⋅ Star Space ⋅ lits (str_of_int player).

Fixpoint all_chars (P : ascii → bool) (s : string) : bool :=
  match s with
  | EmptyString => true
  | String c s' => P c && all_chars P s'
  end.

Definition sign_or_digit (c : ascii) : bool := Chr.is_digit c || Ascii.eqb c "-".

(** A pair goes through when the shapes agree and the move touches no
    obstacle. *)
Definition applicable (src : src_csv) (pm : list (list Z)) : bool :=
  bool_decide (shape (np_array pm) = shape (board src))
  && negb (touches_obstacle (board src) (argwhere_nonzero (np_array pm))).

(** The number of pairs that go through. *)
Definition applicable_pairs (possible_moves : list (list (list Z)))
    (csv_files : list src_csv) : nat :=
  list_sum (List.map (fun src => List.length (List.filter (applicable src) possible_moves))
              csv_files).

(** [template.format(input=value)] for a template that names another
    field, such as [{move}]: the [KeyError]. *)
Definition format_other_field (template value : string) : result string :=
  Raised "KeyError".

(** Arguments of variant A, and a stand-in for [str] on floats, which
    only the printed lines use. *)
Definition args_demo_A : VariantA.args :=
  {| VariantA.output_dir := "results";
     VariantA.sim_cmd := "python simulator.py --move {move}";
     VariantA.results_file := "move_evals.csv";
     VariantA.timeout := 60%Z |}.

Definition float_text (x : float) : string := "<float>".

(** ** The match that decides, and the number it captures *)

(** The match object of the first stage of [parse_winrate] that finds
    one: the loop over the lines, the search from the mention of the
    player on, the search of any win percentage. *)
Definition decisive_match (text_norm : string) (player : Z) : option match_obj :=
  match scan_lines player (splitlines text_norm) with
  | Some m => Some m
  | None =>
      match search I_S (combined_re player) text_norm with
      | Some m => Some m
      | None => search I WINRATE_PATTERNS_0 text_norm
      end
  end.

Fixpoint take_while (P : ascii → bool) (s : string) : string :=
  match s with
  | String c s' => if P c then String c (take_while P s') else EmptyString
  | EmptyString => EmptyString
  end.

Fixpoint drop_while (P : ascii → bool) (s : string) : string :=
  match s with
  | String c s' => if P c then drop_while P s' else s
  | EmptyString => EmptyString
  end.

Definition take_one (P : ascii → bool) (s : string) : string :=
  match s with
  | String c _ => if P c then String c EmptyString else EmptyString
  | EmptyString => EmptyString
  end.

Definition drop_one (P : ascii → bool) (s : string) : string :=
  match s with
  | String c s' => if P c then s' else s
  | EmptyString => EmptyString
  end.

Definition starts_with (P : ascii → bool) (s : string) : bool :=
  match s with
  | String c _ => P c
  | EmptyString => false
  end.

(** [p] and [w] are the same text up to the case of the letters. *)
Fixpoint ci_equal (p w : string) : bool :=
  match p, w with
  | EmptyString, EmptyString => true
  | String a p', String b w' => eq_char I a b && ci_equal p' w'
  | _, _ => false
  end.

(** The text that follows [win percentage] in a win-percentage pattern, up
    to its number: an optional ':', whitespace, an optional ':' or '=',
    whitespace; then comes a digit. The result is the text from that digit
    on. *)
Definition number_start (s : string) : option string :=
  let s1 := drop_one (eq_char I ":") s in
  let s2 := drop_while Chr.is_space s1 in
  let s3 := drop_one (one_of I ":=") s2 in
  let s4 := drop_while Chr.is_space s3 in
  if starts_with Chr.is_digit s4 then Some s4 else None.

(** The longest numeral [digits] or [digits.digits] at the start of a
    text. *)
Definition longest_numeral (s : string) : string :=
  let i := take_while Chr.is_digit s in
  match drop_while Chr.is_digit s with
  | String c r =>
      if Ascii.eqb c "." && starts_with Chr.is_digit r
      then i +:+ String "." (take_while Chr.is_digit r)
      else i
  | EmptyString => i
  end.


(** No match of [r] starts at a character of [pre] in the text
    [pre +:+ rest], the character before being [prev]. *)
Fixpoint no_start (f : flags) (r : re) (prev : option ascii) (pre rest : string) : bool :=
  match pre with
  | EmptyString => true
  | String c pre' =>
      match exec f r prev (pre +:+ rest) None accept with
      | Some _ => false
      | None => no_start f r (Some c) pre' rest
      end
  end.
(** * Properties *)

(** ** Strings *)

Lemma app_assoc_s (a b c : string) : (a +:+ b) +:+ c = a +:+ (b +:+ c).
Proof. induction a as [|x a IH]; simpl; [reflexivity | now rewrite IH]. Qed.

Lemma app_nil_r_s (a : string) : a +:+ "" = a.
Proof. induction a as [|x a IH]; simpl; [reflexivity | now rewrite IH]. Qed.

Lemma length_app_s (a b : string) :
  String.length (a +:+ b) = (String.length a + String.length b)%nat.
Proof. induction a as [|x a IH]; simpl; [reflexivity | now rewrite IH]. Qed.

Lemma substring_prefix (a b : string) : substring 0 (String.length a) (a +:+ b) = a.
Proof.
  induction a as [|x a IH]; simpl.
  - destruct b; reflexivity.
  - now rewrite IH.
Qed.

Lemma consumed_app (u s' : string) : consumed (u +:+ s') s' = u.
Proof.
  unfold consumed. rewrite length_app_s.
  replace (String.length u + String.length s' - String.length s')%nat
    with (String.length u) by lia.
  apply substring_prefix.
Qed.

Lemma last_char_app (prev : option ascii) (a b : string) :
  last_char prev (a +:+ b) = last_char (last_char prev a) b.
Proof. revert prev. induction a as [|x a IH]; intros prev; simpl; [reflexivity | apply IH]. Qed.

Lemma app_eq_nil_s (a b : string) : a +:+ b = "" → a = "" ∧ b = "".
Proof. destruct a; simpl; [auto | discriminate]. Qed.

(** ** The matcher against the declarative reading *)

Section MatcherFacts.
Context {A : Type}.
Variable f : flags.

Lemma star_greedy_sound (k : cls) (s : string) :
  ∀ prev (kont : option ascii → string → option A) x,
    star_greedy f k prev s kont = Some x →
    ∃ u s', s = u +:+ s' ∧ all_in f k u = true ∧ kont (last_char prev u) s' = Some x.
Proof.
  induction s as [|c s IH]; intros prev kont x H; simpl in H.
  - exists "", "". auto.
  - destruct (mem f k c) eqn:Hc.
    + destruct (star_greedy f k (Some c) s kont) eqn:Hs.
      * inversion H; subst. destruct (IH _ _ _ Hs) as (u & s' & -> & Hu & Hk).
        exists (String c u), s'. simpl. rewrite Hc, Hu. auto.
      * exists "", (String c s). auto.
    + exists "", (String c s). auto.
Qed.

Lemma star_lazy_sound (k : cls) (s : string) :
  ∀ prev (kont : option ascii → string → option A) x,
    star_lazy f k prev s kont = Some x →
    ∃ u s', s = u +:+ s' ∧ all_in f k u = true ∧ kont (last_char prev u) s' = Some x.
Proof.
  induction s as [|c s IH]; intros prev kont x H; simpl in H.
  - destruct (kont prev "") eqn:Hk; [|discriminate].
    exists "", "". inversion H; subst. auto.
  - destruct (kont prev (String c s)) eqn:Hk.
    + inversion H; subst. exists "", (String c s). auto.
    + destruct (mem f k c) eqn:Hc; [|discriminate].
      destruct (IH _ _ _ H) as (u & s' & -> & Hu & Hk').
      exists (String c u), s'. simpl. rewrite Hc, Hu. auto.
Qed.

(** Soundness: a result of the matcher comes from a text that the
    pattern matches, followed by a success of the continuation. *)
Lemma exec_sound (r : re) :
  ∀ prev s g (kont : option ascii → string → option string → option A) x,
    exec f r prev s g kont = Some x →
    ∃ u s' g', s = u +:+ s' ∧ matches f r prev u s' g g'
      ∧ kont (last_char prev u) s' g' = Some x.
Proof.
  induction r as [|c|k|a IHa b IHb|a IHa|k|k|k|a IHa|]; intros prev s g kont x H; simpl in H.
  - exists "", s, g. simpl. auto.
  - destruct s as [|d s]; [discriminate|].
    destruct (eq_char f c d) eqn:Hc; [|discriminate].
    exists (String d ""), s, g. simpl. eauto 6.
  - destruct s as [|d s]; [discriminate|].
    destruct (mem f k d) eqn:Hc; [|discriminate].
    exists (String d ""), s, g. simpl. eauto 6.
  - destruct (IHa _ _ _ _ _ H) as (u1 & s1 & g1 & -> & Ha & Hk).
    destruct (IHb _ _ _ _ _ Hk) as (u2 & s2 & g2 & -> & Hb & Hk').
    exists (u1 +:+ u2), s2, g2. rewrite app_assoc_s, last_char_app.
    split; [reflexivity|]. split; [|assumption].
    simpl. exists u1, u2, g1. auto.
  - destruct (exec f a prev s g kont) eqn:Ha.
    + inversion H; subst. destruct (IHa _ _ _ _ _ Ha) as (u & s' & g' & -> & Hm & Hk).
      exists u, s', g'. simpl. auto.
    + exists "", s, g. simpl. auto.
  - destruct (star_greedy_sound _ _ _ _ _ H) as (u & s' & -> & Hu & Hk).
    exists u, s', g. simpl. auto.
  - destruct s as [|d s]; [discriminate|].
    destruct (mem f k d) eqn:Hc; [|discriminate].
    destruct (star_greedy_sound _ _ _ _ _ H) as (u & s' & -> & Hu & Hk).
    exists (String d u), s', g. simpl. rewrite Hc, Hu. auto.
  - destruct (star_lazy_sound _ _ _ _ _ H) as (u & s' & -> & Hu & Hk).
    exists u, s', g. simpl. auto.
  - destruct (IHa _ _ _ _ _ H) as (u & s' & g' & -> & Hm & Hk).
    rewrite consumed_app in Hk.
    exists u, s', (Some u). simpl. eauto.
  - destruct (at_boundary prev s) eqn:Hb; [|discriminate].
    exists "", s, g. simpl. auto.
Qed.

Lemma star_greedy_kont (k : cls) (prev : option ascii) (s : string)
    (kont : option ascii → string → option A) :
  kont prev s ≠ None → star_greedy f k prev s kont ≠ None.
Proof.
  intros H. destruct s as [|c s]; simpl; [assumption|].
  destruct (mem f k c); [|assumption].
  destruct (star_greedy f k (Some c) s kont); [discriminate | assumption].
Qed.

Lemma star_greedy_complete (k : cls) (u : string) :
  ∀ prev rest (kont : option ascii → string → option A),
    all_in f k u = true → kont (last_char prev u) rest ≠ None →
    star_greedy f k prev (u +:+ rest) kont ≠ None.
Proof.
  induction u as [|c u IH]; intros prev rest kont Hu Hk; simpl in *.
  - now apply star_greedy_kont.
  - apply andb_true_iff in Hu as [Hc Hu]. rewrite Hc.
    specialize (IH (Some c) rest kont Hu Hk).
    destruct (star_greedy f k (Some c) (u +:+ rest) kont); [discriminate | contradiction].
Qed.

Lemma star_lazy_complete (k : cls) (u : string) :
  ∀ prev rest (kont : option ascii → string → option A),
    all_in f k u = true → kont (last_char prev u) rest ≠ None →
    star_lazy f k prev (u +:+ rest) kont ≠ None.
Proof.
  induction u as [|c u IH]; intros prev rest kont Hu Hk; simpl in *.
  - destruct rest; simpl; destruct (kont prev _); try discriminate; contradiction.
  - apply andb_true_iff in Hu as [Hc Hu].
    destruct (kont prev (String c (u +:+ rest))); [discriminate|].
    rewrite Hc. now apply IH.
Qed.

(** The text a pattern matches does not depend on the capture it starts
    from. *)
Lemma matches_any_capture (r : re) :
  ∀ prev u rest g g', matches f r prev u rest g g' →
    ∀ h, ∃ h', matches f r prev u rest h h'.
Proof.
  induction r as [|c|k|a IHa b IHb|a IHa|k|k|k|a IHa|]; intros prev u rest g g' H h; simpl in *.
  - destruct H as [-> _]. eauto.
  - destruct H as (d & -> & Hd & _). eauto 6.
  - destruct H as (d & -> & Hd & _). eauto 6.
  - destruct H as (u1 & u2 & g1 & -> & Ha & Hb).
    destruct (IHa _ _ _ _ _ Ha h) as [h1 Ha'].
    destruct (IHb _ _ _ _ _ Hb h1) as [h2 Hb'].
    exists h2, u1, u2, h1. auto.
  - destruct H as [[-> _]|H]; [eauto|].
    destruct (IHa _ _ _ _ _ H h) as [h' H']. eauto.
  - destruct H as [Hu _]. eauto.
  - destruct H as (Hn & Hu & _). eauto.
  - destruct H as [Hu _]. eauto.
  - destruct H as [[g1 H] _]. destruct (IHa _ _ _ _ _ H h) as [h' H']. eauto.
  - destruct H as (-> & Hb & _). eauto.
Qed.

(** Completeness: when the pattern matches a prefix after which the
    continuation succeeds whatever the capture, the matcher succeeds. *)
Lemma exec_complete (r : re) :
  ∀ prev u rest g g' (kont : option ascii → string → option string → option A),
    matches f r prev u rest g g' →
    (∀ h, kont (last_char prev u) rest h ≠ None) →
    exec f r prev (u +:+ rest) g kont ≠ None.
Proof.
  induction r as [|c|k|a IHa b IHb|a IHa|k|k|k|a IHa|];
    intros prev u rest g g' kont H Hk; simpl in *.
  - destruct H as [-> _]. apply Hk.
  - destruct H as (d & -> & Hd & _). simpl. rewrite Hd. apply Hk.
  - destruct H as (d & -> & Hd & _). simpl. rewrite Hd. apply Hk.
  - destruct H as (u1 & u2 & g1 & -> & Ha & Hb). rewrite app_assoc_s.
    eapply IHa; [exact Ha|]. intros h.
    destruct (matches_any_capture _ _ _ _ _ _ Hb h) as [h' Hb'].
    eapply IHb; [exact Hb'|]. intros h2. rewrite <- last_char_app. apply Hk.
  - destruct H as [[-> _]|H].
    + simpl. destruct (exec f a prev rest g kont); [discriminate | apply Hk].
    + specialize (IHa _ _ _ _ _ kont H Hk).
      destruct (exec f a prev (u +:+ rest) g kont); [discriminate | contradiction].
  - destruct H as [Hu _]. apply star_greedy_complete; [assumption | apply Hk].
  - destruct H as (Hn & Hu & _). destruct u as [|d u]; [contradiction|].
    simpl in *. apply andb_true_iff in Hu as [Hd Hu]. rewrite Hd.
    apply star_greedy_complete; [assumption | apply Hk].
  - destruct H as [Hu _]. apply star_lazy_complete; [assumption | apply Hk].
  - destruct H as [[g1 H] _]. eapply IHa; [exact H|]. intros h. apply Hk.
  - destruct H as (-> & Hb & _). simpl. rewrite Hb. apply Hk.
Qed.

End MatcherFacts.

(** ** [search] against the declarative reading *)

Lemma search_from_sound (f : flags) (r : re) (s : string) :
  ∀ prev m, search_from f r prev s = Some m → occurs_from f r prev s (group1 m).
Proof.
  induction s as [|c s IH]; intros prev m H; simpl in H.
  - destruct (exec f r prev "" None accept) eqn:E; [|discriminate].
    inversion H; subst.
    apply exec_sound in E as (u & s' & g' & Hs & Hm & Hk).
    inversion Hk; subst. exists "", u, s'. simpl. auto.
  - destruct (exec f r prev (String c s) None accept) eqn:E.
    + inversion H; subst.
      apply exec_sound in E as (u & s' & g' & Hs & Hm & Hk).
      inversion Hk; subst. exists "", u, s'. simpl. auto.
    + destruct (IH _ _ H) as (pre & u & post & -> & Hm).
      exists (String c pre), u, post. simpl. auto.
Qed.

Lemma search_from_complete (f : flags) (r : re) (pre : string) :
  ∀ prev u post g, matches f r (last_char prev pre) u post None g →
    search_from f r prev (pre +:+ (u +:+ post)) ≠ None.
Proof.
  induction pre as [|c pre IH]; intros prev u post g H; simpl in *.
  - assert (E : exec f r prev (u +:+ post) None accept ≠ None).
    { eapply exec_complete; [exact H|]. intros h. discriminate. }
    destruct (u +:+ post); simpl;
      destruct (exec f r prev _ None accept); try discriminate; contradiction.
  - destruct (exec f r prev _ None accept); [discriminate|].
    eapply IH; eassumption.
Qed.

Lemma occurs_from_search (f : flags) (r : re) (prev : option ascii) (s : string) (g : option string) :
  occurs_from f r prev s g → search_from f r prev s ≠ None.
Proof. intros (pre & u & post & -> & H). eapply search_from_complete; eassumption. Qed.

Lemma occurs_search (f : flags) (r : re) (s : string) :
  occurs f r s → search f r s ≠ None.
Proof. intros [g H]. eapply occurs_from_search; eassumption. Qed.

Lemma search_occurs (f : flags) (r : re) (s : string) (m : match_obj) :
  search f r s = Some m → occurs f r s.
Proof. intros H. exists (group1 m). now apply search_from_sound. Qed.

Lemma search_none (f : flags) (r : re) (s : string) :
  ¬ occurs f r s → search f r s = None.
Proof.
  intros H. destruct (search f r s) eqn:E; [|reflexivity].
  exfalso. apply H. eapply search_occurs; eassumption.
Qed.

Lemma exec_none_starts (f : flags) (r : re) (prev : option ascii) (s : string) :
  ¬ starts_here f r prev s → exec f r prev s None accept = None.
Proof.
  intros H. destruct (exec f r prev s None accept) eqn:E; [|reflexivity].
  exfalso. apply H. apply exec_sound in E as (u & s' & g' & -> & Hm & _).
  exists u, s', g'. auto.
Qed.

Lemma starts_here_exec (f : flags) (r : re) (prev : option ascii) (s : string) :
  starts_here f r prev s → exec f r prev s None accept ≠ None.
Proof.
  intros (u & rest & g & -> & H). eapply exec_complete; [exact H|]. discriminate.
Qed.

(** The search passes over a prefix in which no match starts. *)
Lemma search_from_skip (f : flags) (r : re) (pre : string) :
  ∀ prev rest,
    (∀ a b, pre = a +:+ b → b ≠ "" → ¬ starts_here f r (last_char prev a) (b +:+ rest)) →
    search_from f r prev (pre +:+ rest) = search_from f r (last_char prev pre) rest.
Proof.
  induction pre as [|c pre IH]; intros prev rest H; simpl; [reflexivity|].
  rewrite (exec_none_starts f r prev (String c (pre +:+ rest))).
  - apply IH. intros a b -> Hb. apply (H (String c a) b); auto.
  - apply (H "" (String c pre)); [reflexivity | discriminate].
Qed.

(** ** Patterns without [\b], without [.], and characters they exclude *)

Lemma matches_context (f : flags) (r : re) :
  context_free r = true →
  ∀ prev u rest g g' prev' rest',
    matches f r prev u rest g g' → matches f r prev' u rest' g g'.
Proof.
  induction r as [|c|k|a IHa b IHb|a IHa|k|k|k|a IHa|]; simpl; intros Hcf prev u rest g g' prev' rest' H;
    try assumption.
  - apply andb_true_iff in Hcf as [Ha Hb].
    destruct H as (u1 & u2 & g1 & -> & H1 & H2). exists u1, u2, g1. eauto.
  - destruct H as [H|H]; [left; assumption | right; eauto].
  - destruct H as [[g1 H] ->]. split; [|reflexivity]. exists g1. eauto.
  - discriminate.
Qed.

Lemma one_of_flags (f f' : flags) (s : string) (d : ascii) :
  ignorecase f = ignorecase f' → one_of f s d = one_of f' s d.
Proof.
  intros Hi. induction s as [|x s IHs]; simpl; [reflexivity|].
  rewrite IHs. unfold eq_char. now rewrite Hi.
Qed.

Lemma mem_flags (f f' : flags) (k : cls) (d : ascii) :
  ignorecase f = ignorecase f' → k ≠ Dot → mem f k d = mem f' k d.
Proof.
  intros Hi Hk. destruct k as [| | |s]; simpl; try reflexivity; [contradiction|].
  now apply one_of_flags.
Qed.

Lemma all_in_flags (f f' : flags) (k : cls) (u : string) :
  ignorecase f = ignorecase f' → k ≠ Dot → all_in f k u = all_in f' k u.
Proof.
  intros Hi Hk. induction u as [|c u IH]; simpl; [reflexivity|].
  now rewrite IH, (mem_flags f f').
Qed.

Lemma matches_flags (f f' : flags) (r : re) :
  ignorecase f = ignorecase f' → dot_free r = true →
  ∀ prev u rest g g', matches f r prev u rest g g' → matches f' r prev u rest g g'.
Proof.
  intros Hi. induction r as [|c|k|a IHa b IHb|a IHa|k|k|k|a IHa|]; simpl; intros Hd prev u rest g g' H;
    try assumption.
  - destruct H as (d & -> & Hc & ->). exists d. unfold eq_char in *. rewrite <- Hi. auto.
  - destruct H as (d & -> & Hc & ->). exists d.
    rewrite <- (mem_flags f f') by (auto; intros ->; discriminate). auto.
  - apply andb_true_iff in Hd as [Ha Hb].
    destruct H as (u1 & u2 & g1 & -> & H1 & H2). exists u1, u2, g1. eauto.
  - destruct H as [H|H]; [left; assumption | right; eauto].
  - destruct H as [H ->]. rewrite <- (all_in_flags f f') by (auto; intros ->; discriminate). auto.
  - destruct H as (Hn & H & ->). rewrite <- (all_in_flags f f') by (auto; intros ->; discriminate). auto.
  - destruct H as [H ->]. rewrite <- (all_in_flags f f') by (auto; intros ->; discriminate). auto.
  - destruct H as [[g1 H] ->]. split; [|reflexivity]. exists g1. eauto.
Qed.

Lemma has_char_app (c : ascii) (a b : string) :
  has_char c (a +:+ b) = has_char c a || has_char c b.
Proof. induction a as [|x a IH]; simpl; [reflexivity|]. now rewrite IH, orb_assoc. Qed.

Lemma all_in_has_char (f : flags) (k : cls) (c : ascii) (u : string) :
  mem f k c = false → all_in f k u = true → has_char c u = false.
Proof.
  intros Hc. induction u as [|d u IH]; simpl; [reflexivity|].
  intros H. apply andb_true_iff in H as [Hd Hu]. rewrite (IH Hu), orb_false_r.
  destruct (Ascii.eqb_spec d c) as [->|]; [congruence | reflexivity].
Qed.

Lemma excludes_sound (f : flags) (r : re) (c : ascii) :
  excludes f r c = true →
  ∀ prev u rest g g', matches f r prev u rest g g' → has_char c u = false.
Proof.
  induction r as [|x|k|a IHa b IHb|a IHa|k|k|k|a IHa|]; simpl; intros He prev u rest g g' H.
  - now destruct H as [-> _].
  - destruct H as (d & -> & Hd & _). simpl. rewrite orb_false_r.
    destruct (Ascii.eqb_spec d c) as [->|]; [|reflexivity].
    rewrite Hd in He. discriminate.
  - destruct H as (d & -> & Hd & _).
    eapply (all_in_has_char f k); [now apply negb_true_iff|]. simpl. now rewrite Hd.
  - apply andb_true_iff in He as [Ha Hb].
    destruct H as (u1 & u2 & g1 & -> & H1 & H2). rewrite has_char_app.
    now rewrite (IHa Ha _ _ _ _ _ H1), (IHb Hb _ _ _ _ _ H2).
  - destruct H as [[-> _]|H]; [reflexivity | eauto].
  - destruct H as [H _]. eapply all_in_has_char; [apply negb_true_iff|]; eassumption.
  - destruct H as (_ & H & _). eapply all_in_has_char; [apply negb_true_iff|]; eassumption.
  - destruct H as [H _]. eapply all_in_has_char; [apply negb_true_iff|]; eassumption.
  - destruct H as [[g1 H] _]. eauto.
  - now destruct H as (-> & _).
Qed.

(** ** [str.replace] and [str.splitlines] *)

Lemma replace_char_app (old new : ascii) (a b : string) :
  replace_char old new (a +:+ b) = replace_char old new a +:+ replace_char old new b.
Proof. induction a as [|x a IH]; simpl; [reflexivity | now rewrite IH]. Qed.

Lemma replace_char_app_inv (old new : ascii) (a : string) :
  ∀ t b, replace_char old new t = a +:+ b →
    ∃ a' b', t = a' +:+ b' ∧ replace_char old new a' = a ∧ replace_char old new b' = b.
Proof.
  induction a as [|x a IH]; intros t b H; simpl in H.
  - exists "", t. auto.
  - destruct t as [|y t]; [discriminate|]. simpl in H. injection H as Hx Ht.
    destruct (IH _ _ Ht) as (a' & b' & Et & Ha & Hb).
    exists (String y a'), b'. simpl. rewrite Et, Hx, Ha. auto.
Qed.

(** A text without the new character that is the image of [u] holds no
    old character either: it is [u] itself. *)
Lemma replace_char_id (old new : ascii) (u : string) :
  has_char new (replace_char old new u) = false → replace_char old new u = u.
Proof.
  induction u as [|x u IH]; simpl; [reflexivity|].
  intros H. apply orb_false_iff in H as [Hx Hu]. rewrite (IH Hu).
  destruct (Ascii.eqb_spec x old) as [->|]; [|reflexivity].
  now rewrite Ascii.eqb_refl in Hx.
Qed.

(** Every line is a piece of the text. *)
Lemma splitlines_from_piece_bounded (n : nat) :
  ∀ s cur line, (String.length s <= n)%nat → In line (splitlines_from cur s) →
    ∃ a b, cur +:+ s = a +:+ (line +:+ b).
Proof.
  induction n as [|n IH]; intros s cur line Hn H.
  - destruct s as [|c s]; [|simpl in Hn; lia]. simpl in H.
    destruct (String.eqb cur ""); simpl in H; [contradiction|].
    destruct H as [<-|[]]. exists "", "". simpl. now rewrite !app_nil_r_s.
  - destruct s as [|c s]; simpl in H.
    + destruct (String.eqb cur ""); simpl in H; [contradiction|].
      destruct H as [<-|[]]. exists "", "". simpl. now rewrite !app_nil_r_s.
    + simpl in Hn.
      assert (Hbreak : ∀ t u, String c s = u +:+ t → (String.length t <= n)%nat →
                In line (cur :: splitlines_from "" t) →
                ∃ a b, cur +:+ String c s = a +:+ (line +:+ b)).
      { intros t u Hs Hlt [<-|Hin].
        - exists "", (String c s). reflexivity.
        - destruct (IH t "" line Hlt Hin) as (a & b & Hab). simpl in Hab.
          exists (cur +:+ (u +:+ a)), b. rewrite Hs, Hab, !app_assoc_s. reflexivity. }
      destruct (Ascii.eqb c Chr.CR).
      * destruct s as [|d s].
        -- apply (Hbreak "" (String c "")); simpl; [reflexivity | lia | assumption].
        -- simpl in Hn. destruct (Ascii.eqb d Chr.LF).
           ++ apply (Hbreak s (String c (String d ""))); simpl; [reflexivity | lia | assumption].
           ++ apply (Hbreak (String d s) (String c "")); simpl; [reflexivity | lia | assumption].
      * destruct (Chr.is_linebreak c).
        -- apply (Hbreak s (String c "")); simpl; [reflexivity | lia | assumption].
        -- destruct (IH s _ _ ltac:(lia) H) as (a & b & Hab).
           exists a, b. rewrite <- Hab, app_assoc_s. reflexivity.
Qed.

Lemma splitlines_piece (s line : string) :
  In line (splitlines s) → ∃ a b, s = a +:+ (line +:+ b).
Proof. intros H. now apply (splitlines_from_piece_bounded (String.length s) s "" line) in H. Qed.

(** ** The patterns of [parse_winrate] *)

Lemma has_tail_refl (f : flags) (r : re) : has_tail f r r.
Proof. intros prev u rest g g' H. exists "", u, g. auto. Qed.

Lemma has_tail_cat (f : flags) (a r b : re) : has_tail f r b → has_tail f (a ⋅ r) b.
Proof.
  intros Hr prev u rest g g' (u1 & u2 & g1 & -> & Ha & H).
  destruct (Hr _ _ _ _ _ H) as (v1 & v2 & h & -> & Hb).
  exists (u1 +:+ v1), v2, h. rewrite app_assoc_s, last_char_app. auto.
Qed.

Lemma combined_has_win (player : Z) : has_tail I_S (combined_re player) win_re.
Proof. unfold combined_re. do 5 apply has_tail_cat. apply has_tail_refl. Qed.

(** A match of [win_re] is a match of the last-resort pattern, which
    only allows one more ':'. *)
Lemma win_re_last_resort (prev : option ascii) (u rest : string) (g g' : option string) :
  matches I win_re prev u rest g g' → matches I WINRATE_PATTERNS_0 prev u rest g g'.
Proof.
  unfold win_re, WINRATE_PATTERNS_0.
  intros (u1 & u2 & g1 & -> & H1 & H2).
  exists u1, u2, g1. split; [reflexivity|]. split; [assumption|].
  exists "", u2, g1. simpl (last_char _ ""). split; [reflexivity|]. split; [|assumption].
  left. auto.
Qed.

Lemma context_free_last_resort : context_free WINRATE_PATTERNS_0 = true.
Proof. reflexivity. Qed.

Lemma context_free_win_re : context_free win_re = true.
Proof. reflexivity. Qed.

(** An occurrence in a piece of a text is an occurrence in the text. *)
Lemma occurs_from_piece (f : flags) (r : re) (a line b : string)
    (prev prev' : option ascii) (g : option string) :
  context_free r = true →
  occurs_from f r prev line g → occurs_from f r prev' (a +:+ (line +:+ b)) g.
Proof.
  intros Hcf (pre & u & post & -> & H).
  exists (a +:+ pre), u, (post +:+ b). split.
  - now rewrite !app_assoc_s.
  - eapply matches_context; eassumption.
Qed.

Lemma occurs_from_context (f : flags) (r : re) (text : string)
    (prev prev' : option ascii) (g : option string) :
  context_free r = true → occurs_from f r prev text g → occurs_from f r prev' text g.
Proof.
  intros Hcf H. apply (occurs_from_piece f r "" text "" prev prev' g Hcf) in H.
  simpl in H. now rewrite app_nil_r_s in H.
Qed.

Lemma shortens_cat (f : flags) (c : ascii) (a b : re) :
  context_free a = true → excludes f a c = true →
  shortens f c b → shortens f c (a ⋅ b).
Proof.
  intros Hcf Hex Hb prev u rest g g' (u1 & u2 & g1 & -> & Ha & H).
  destruct (Hb _ _ _ _ _ H) as (v1 & v2 & h & -> & Hv & Hc).
  exists (u1 +:+ v1), v2, h. rewrite app_assoc_s. split; [reflexivity|]. split.
  - exists u1, v1, g1. split; [reflexivity|]. split; [|assumption].
    eapply matches_context; eassumption.
  - rewrite has_char_app, Hc, (excludes_sound f a c Hex _ _ _ _ _ Ha). reflexivity.
Qed.

Lemma digit_not_period (d : ascii) : Chr.is_digit d = true → Ascii.eqb d "." = false.
Proof.
  intros H. destruct (Ascii.eqb_spec d ".") as [->|]; [|reflexivity].
  vm_compute in H. discriminate.
Qed.

Lemma shortens_number_tail (f : flags) :
  shortens f "." (number ⋅ Star Space ⋅ Opt (Lit "%")).
Proof.
  intros prev u rest g g' (uN & uT & g1 & -> & HN & HT).
  destruct HN as [[g2 (uP & uO & g3 & -> & (HPn & HP & _) & HO)] _].
  destruct uP as [|d uP]; [contradiction|]. simpl in HP.
  apply andb_true_iff in HP as [Hd HP].
  exists (String d ""), (uP +:+ uO +:+ uT), (Some (String d "")).
  split; [now rewrite !app_assoc_s|]. split.
  - exists (String d ""), "", (Some (String d "")). split; [reflexivity|]. split.
    + split; [|reflexivity]. exists g.
      exists (String d ""), "", g. split; [reflexivity|]. split.
      * simpl. rewrite Hd. repeat split; auto; discriminate.
      * left. auto.
    + exists "", "", (Some (String d "")). split; [reflexivity|]. split.
      * simpl. auto.
      * left. auto.
  - simpl. now rewrite (digit_not_period d Hd).
Qed.

Lemma shortens_last_resort : shortens I "." WINRATE_PATTERNS_0.
Proof.
  unfold WINRATE_PATTERNS_0.
  repeat (apply shortens_cat; [reflexivity | reflexivity |]).
  apply shortens_number_tail.
Qed.

(** Turning commas into periods creates no win-percentage pattern. *)
Lemma occurs_replace_commas (text : string) :
  occurs I WINRATE_PATTERNS_0 (replace_char "," "." text) → occurs I WINRATE_PATTERNS_0 text.
Proof.
  intros (g & pre & u & post & E & H).
  destruct (shortens_last_resort _ _ _ _ _ H) as (u1 & u2 & h & -> & H1 & Hc).
  rewrite app_assoc_s in E.
  apply replace_char_app_inv in E as (pre' & t1 & -> & Hpre & E).
  apply replace_char_app_inv in E as (v1 & post' & -> & Hv & Hpost).
  assert (Ev : v1 = u1).
  { rewrite <- Hv. symmetry. apply replace_char_id. now rewrite Hv. }
  subst v1. exists h, pre', u1, post'. split; [reflexivity|].
  eapply matches_context; [reflexivity | exact H1].
Qed.

Lemma replace_char_absent (old new : ascii) (u : string) :
  has_char old u = false → replace_char old new u = u.
Proof.
  induction u as [|x u IH]; simpl; [reflexivity|].
  intros H. apply orb_false_iff in H as [Hx Hu]. now rewrite Hx, (IH Hu).
Qed.

(** Nor does it remove one: the pattern matches no comma. *)
Lemma occurs_commas_replaced (text : string) :
  occurs I WINRATE_PATTERNS_0 text → occurs I WINRATE_PATTERNS_0 (replace_char "," "." text).
Proof.
  intros (g & pre & u & post & -> & H).
  pose proof (excludes_sound I WINRATE_PATTERNS_0 "," eq_refl _ _ _ _ _ H) as Hc.
  exists g, (replace_char "," "." pre), u, (replace_char "," "." post). split.
  - now rewrite !replace_char_app, (replace_char_absent _ _ u Hc).
  - eapply matches_context; [reflexivity | exact H].
Qed.

(** *** The captured numeral *)

Lemma all_in_digits (f : flags) (u : string) : all_in f Digit u = all_digits u.
Proof. induction u as [|c u IH]; simpl; [reflexivity | now rewrite IH]. Qed.

Lemma eq_char_period (f : flags) (d : ascii) : eq_char f "." d = true → d = "."%char.
Proof.
  unfold eq_char.
  destruct (ignorecase f); destruct d as [[] [] [] [] [] [] [] []];
    vm_compute; intros H; try discriminate H; reflexivity.
Qed.

Lemma number_numeral (f : flags) (prev : option ascii) (u rest : string) (g g' : option string) :
  matches f number prev u rest g g' → g' = Some u ∧ numeral u.
Proof.
  intros [[g1 (uP & uO & g2 & -> & (HPn & HP & _) & HO)] ->]. split; [reflexivity|].
  rewrite all_in_digits in HP. exists uP. split; [assumption|]. split; [assumption|].
  destruct HO as [[-> _]|(uD & uF & g3 & -> & (d & -> & Hd & _) & (HFn & HF & _))].
  - left. now rewrite app_nil_r_s.
  - right. rewrite all_in_digits in HF. exists uF. simpl.
    apply eq_char_period in Hd as ->. auto.
Qed.

Lemma tail_keeps_capture (f : flags) (prev : option ascii) (u rest : string) (g g' : option string) :
  matches f (Star Space ⋅ Opt (Lit "%")) prev u rest g g' → g' = g.
Proof.
  intros (u1 & u2 & g1 & -> & (_ & ->) & [[_ ->]|(d & _ & _ & ->)]); reflexivity.
Qed.

Lemma captures_numeral_number (f : flags) :
  captures_numeral f (number ⋅ Star Space ⋅ Opt (Lit "%")).
Proof.
  intros prev u rest g g' (uN & uT & g1 & -> & HN & HT).
  apply number_numeral in HN as [-> Hn]. apply tail_keeps_capture in HT as ->. eauto.
Qed.

Lemma captures_numeral_cat (f : flags) (a b : re) :
  captures_numeral f b → captures_numeral f (a ⋅ b).
Proof. intros Hb prev u rest g g' (u1 & u2 & g1 & -> & _ & H). eauto. Qed.

Lemma captures_numeral_last_resort (f : flags) : captures_numeral f WINRATE_PATTERNS_0.
Proof.
  unfold WINRATE_PATTERNS_0.
  do 5 apply captures_numeral_cat. apply captures_numeral_number.
Qed.

Lemma captures_numeral_win_re (f : flags) : captures_numeral f win_re.
Proof.
  unfold win_re. do 4 apply captures_numeral_cat. apply captures_numeral_number.
Qed.

Lemma captures_numeral_combined (f : flags) (player : Z) : captures_numeral f (combined_re player).
Proof.
  unfold combined_re. do 5 apply captures_numeral_cat. apply captures_numeral_win_re.
Qed.

Lemma split_point_digits (i : string) :
  all_digits i = true → ∀ tl, split_point (i +:+ tl) = (i +:+ fst (split_point tl), snd (split_point tl)).
Proof.
  induction i as [|c i IH]; simpl; intros H tl.
  - now destruct (split_point tl).
  - apply andb_true_iff in H as [Hc Hi]. rewrite (digit_not_period c Hc), (IH Hi). reflexivity.
Qed.

Lemma eqb_nonempty (s : string) : s ≠ "" → String.eqb s "" = false.
Proof. intros H. now apply String.eqb_neq. Qed.

(** [float] accepts every numeral the patterns can capture. *)
Lemma numeral_float (n : string) : numeral n → ∃ val, float_of_str n = Returned val.
Proof.
  intros (i & Hi & Hne & [->|(fr & Hfr & Hfne & ->)]); unfold float_of_str.
  - pose proof (split_point_digits i Hi "") as E. simpl in E. rewrite app_nil_r_s in E.
    rewrite E, Hi, (eqb_nonempty i Hne). simpl. eauto.
  - pose proof (split_point_digits i Hi (String "." fr)) as E. simpl in E.
    rewrite app_nil_r_s in E. rewrite E, Hi, Hfr, (eqb_nonempty i Hne), (eqb_nonempty fr Hfne).
    simpl. eauto.
Qed.

Lemma winrate_of_match_numeral (m : match_obj) (n : string) :
  group1 m = Some n → numeral n →
  ∃ val, float_of_str n = Returned val ∧ winrate_of_match m = Returned (Some (normalize val)).
Proof.
  intros Hg Hn. destruct (numeral_float n Hn) as [val Hv]. exists val. split; [assumption|].
  unfold winrate_of_match, float_of_group. now rewrite Hg, Hv.
Qed.

(** *** The loop over the lines *)

Lemma scan_lines_some (player : Z) (lines : list string) (m : match_obj) :
  scan_lines player lines = Some m →
  ∃ line, In line lines ∧ search I (line_player_re player) line ≠ None
    ∧ search I win_re line = Some m.
Proof.
  induction lines as [|l lines IH]; simpl; [discriminate|].
  destruct (search I (line_player_re player) l) eqn:Ep.
  - destruct (search I win_re l) eqn:Ew.
    + intros [= <-]. exists l. rewrite Ep. auto.
    + intros H. destruct (IH H) as (line & Hin & Hl). eauto.
  - intros H. destruct (IH H) as (line & Hin & Hl). eauto.
Qed.

Lemma scan_lines_skip (player : Z) (before rest : list string) :
  (∀ l, In l before →
     search I (line_player_re player) l = None ∨ search I win_re l = None) →
  scan_lines player (before ++ rest) = scan_lines player rest.
Proof.
  induction before as [|l before IH]; simpl; intros H; [reflexivity|].
  destruct (H l (or_introl eq_refl)) as [E|E]; rewrite E.
  - apply IH. auto.
  - destruct (search I (line_player_re player) l); apply IH; auto.
Qed.

(** ** [parse_winrate] *)

Lemma occurs_from_weaken (f : flags) (r r' : re) (prev : option ascii) (text : string)
    (g : option string) :
  (∀ p u rest h h', matches f r p u rest h h' → matches f r' p u rest h h') →
  occurs_from f r prev text g → occurs_from f r' prev text g.
Proof. intros Hr (pre & u & post & -> & H). exists pre, u, post. auto. Qed.

(** No stage of the extraction finds anything in a text without a
    win-percentage pattern. *)
Lemma parse_winrate_no_pattern (text : string) (player : Z) :
  ¬ occurs I WINRATE_PATTERNS_0 text → parse_winrate text player = Returned None.
Proof.
  intros Hraw. unfold parse_winrate. destruct (String.eqb text ""); [reflexivity|].
  assert (Hn : ¬ occurs I WINRATE_PATTERNS_0 (replace_char "," "." text)).
  { intros H. apply Hraw. now apply occurs_replace_commas. }
  clear Hraw. set (tn := replace_char "," "." text) in *.
  destruct (scan_lines player (splitlines tn)) as [m|] eqn:Es.
  { exfalso. apply scan_lines_some in Es as (line & Hin & _ & Hw).
    apply search_from_sound in Hw.
    apply splitlines_piece in Hin as (a & b & E).
    apply Hn. exists (group1 m). rewrite E.
    apply (occurs_from_piece I _ a line b None None _ context_free_last_resort).
    eapply occurs_from_weaken; [|exact Hw]. intros. now apply win_re_last_resort. }
  destruct (search I_S (combined_re player) tn) as [m|] eqn:Ec.
  { exfalso. apply search_from_sound in Ec as (pre & u & post & E & H).
    apply combined_has_win in H as (u1 & u2 & g1 & -> & H).
    apply (matches_flags I_S I) in H; [|reflexivity|reflexivity].
    apply win_re_last_resort in H.
    destruct (matches_any_capture I _ _ _ _ _ _ H None) as [h' H'].
    apply Hn. exists h', (pre +:+ u1), u2, post. split.
    - now rewrite E, !app_assoc_s.
    - eapply matches_context; [reflexivity | exact H']. }
  rewrite (search_none I WINRATE_PATTERNS_0 tn Hn). reflexivity.
Qed.

Lemma timeout_sentinel_no_pattern : ¬ occurs I WINRATE_PATTERNS_0 "SIMULATOR_TIMEOUT".
Proof. intros H. apply occurs_search in H. now apply H. Qed.

Lemma error_sentinel_no_pattern (description : string) :
  ¬ occurs I WINRATE_PATTERNS_0 description →
  ¬ occurs I WINRATE_PATTERNS_0 ("SIMULATOR_ERROR: " +:+ description).
Proof.
  intros Hd H. apply occurs_search in H.
  change (search_from I WINRATE_PATTERNS_0 (Some " "%char) description ≠ None) in H.
  destruct (search_from I WINRATE_PATTERNS_0 (Some " "%char) description) as [m|] eqn:E;
    [|now apply H].
  apply search_from_sound in E. apply Hd. exists (group1 m).
  eapply occurs_from_context; [reflexivity | exact E].
Qed.

Lemma stage_result (f : flags) (r : re) (text : string) (m : match_obj) :
  captures_numeral f r → search f r text = Some m →
  ∃ num val, occurs_from f r None text (Some num) ∧ float_of_str num = Returned val
    ∧ winrate_of_match m = Returned (Some (normalize val)).
Proof.
  intros Hcap Hs. apply search_from_sound in Hs.
  pose proof Hs as (pre & u & post & _ & Hm).
  apply Hcap in Hm as (n & Hg & Hn).
  destruct (winrate_of_match_numeral m n Hg Hn) as (val & Hv & Hw).
  exists n, val. rewrite <- Hg. auto.
Qed.

Lemma parse_winrate_shape (text : string) (player : Z) :
  parse_winrate text player = Returned None
  ∨ ∃ num val,
      winrate_numeral (replace_char "," "." text) player num
      ∧ float_of_str num = Returned val
      ∧ parse_winrate text player = Returned (Some (normalize val)).
Proof.
  unfold parse_winrate. destruct (String.eqb text ""); [now left|].
  set (tn := replace_char "," "." text).
  destruct (scan_lines player (splitlines tn)) as [m|] eqn:Es.
  { right. apply scan_lines_some in Es as (line & Hin & Hp & Hw).
    destruct (stage_result _ _ _ _ (captures_numeral_win_re I) Hw) as (num & val & Ho & Hv & Hr).
    exists num, val. split; [|auto]. left. exists line. split; [assumption|]. split; [|assumption].
    destruct (search I (line_player_re player) line) eqn:Ep; [|contradiction].
    eapply search_occurs; eassumption. }
  destruct (search I_S (combined_re player) tn) as [m|] eqn:Ec.
  { right.
    destruct (stage_result _ _ _ _ (captures_numeral_combined I_S player) Ec)
      as (num & val & Ho & Hv & Hr).
    exists num, val. unfold winrate_numeral. auto. }
  destruct (search I WINRATE_PATTERNS_0 tn) as [m|] eqn:El; [|now left].
  right.
  destruct (stage_result _ _ _ _ (captures_numeral_last_resort I) El) as (num & val & Ho & Hv & Hr).
  exists num, val. unfold winrate_numeral. auto.
Qed.

(** [parse_winrate] raises on no text. *)
Lemma parse_winrate_returns (text : string) (player : Z) :
  ∃ r, parse_winrate text player = Returned r.
Proof.
  destruct (parse_winrate_shape text player) as [H|(num & val & _ & _ & H)]; eauto.
Qed.

(** ** Claims on the win-rate extractor *)

(** The builtins and the stages on small inputs. *)
Example splitlines_boundaries :
  splitlines ("a" +:+ String Chr.CR LF_s +:+ "b" +:+ LF_s +:+ LF_s +:+ "c" +:+ LF_s)
  = ["a"; "b"; ""; "c"].
Proof. reflexivity. Qed.

Example player_is_whole_word :
  search I (line_player_re 1) "Player 10 wins" = None
  ∧ search I (line_player_re 1) "PLAYER  1: wins" ≠ None.
Proof. split; [reflexivity | discriminate]. Qed.

Example second_stage_crosses_lines :
  parse_winrate ("Player 1" +:+ LF_s +:+ "win percentage = 12.5 %") 1
  = Returned (Some 0.125%float).
Proof. vm_compute. reflexivity. Qed.

Example last_stage_ignores_player :
  parse_winrate "Player 2 win percentage: 40%" 1 = Returned (Some 0.4%float).
Proof. vm_compute. reflexivity. Qed.

(** C2, at the input that breaks it: a reported percentage above 100 is
    divided by 100 like any other value above 1, so the text
    [win percentage: 150%] yields 1.5, a number outside [0,1]. *)
Theorem winrate_above_one :
  parse_winrate "win percentage: 150%" 1 = Returned (Some 1.5%float)
  ∧ PrimFloat.ltb 1 1.5 = true.
Proof. split; vm_compute; reflexivity. Qed.

(** C6 as stated fails: the second line below mentions Player 1 and holds
    [win percentage: 73%], and the extraction yields 0.5, the win
    percentage of the first line that mentions Player 1. *)
Lemma tagged_line_not_first :
  let line := "Player 1 win percentage: 73%" in
  let text := "Player 1 win percentage: 50%" +:+ LF_s +:+ line in
  In line (splitlines text)
  ∧ occurs I (line_player_re 1) line
  ∧ parse_winrate text 1 = Returned (Some 0.5%float)
  ∧ parse_winrate text 1 ≠ Returned (Some 0.73%float).
Proof.
  cbv zeta. split; [vm_compute; auto|]. split.
  - eapply search_occurs. vm_compute. reflexivity.
  - split; [vm_compute; reflexivity|].
    intros H.
    apply (f_equal (fun r => match r with
                             | Returned (Some x) => PrimFloat.ltb x 0.6
                             | _ => false
                             end)) in H.
    vm_compute in H. discriminate.
Qed.

Lemma win_73_here (prev : option ascii) (post : string) :
  search_from I win_re prev ("win percentage: 73%" +:+ post)
  = Some {| group1 := Some "73" |}.
Proof.
  rewrite <- (consumed_app "73" (String "%" post)). reflexivity.
Qed.

(** C6, amended: when the first line that both mentions Player 1 (as a
    whole word, in any case) and holds a win-percentage pattern has
    [win percentage: 73%] as its leftmost win-percentage pattern, the
    extraction for player 1 yields 0.73, found on that line. The lines are
    those of the text with its commas turned into periods. *)
Theorem tagged_line_first_match (text : string) (before after : list string)
    (pre post : string) :
  splitlines (replace_char "," "." text)
    = (before ++ (pre +:+ ("win percentage: 73%" +:+ post)) :: after)%list →
  (∀ l, In l before → ¬ (occurs I (line_player_re 1) l ∧ occurs I win_re l)) →
  occurs I (line_player_re 1) (pre +:+ ("win percentage: 73%" +:+ post)) →
  (∀ a b, pre = a +:+ b → b ≠ "" →
     ¬ starts_here I win_re (last_char None a) (b +:+ ("win percentage: 73%" +:+ post))) →
  parse_winrate text 1 = Returned (Some 0.73%float).
Proof.
  intros Hlines Hbefore Hplayer Hleft. unfold parse_winrate.
  destruct (String.eqb_spec text "") as [->|_].
  { destruct before; discriminate Hlines. }
  rewrite Hlines, scan_lines_skip.
  - cbn [scan_lines].
    destruct (search I (line_player_re 1) _) eqn:Ep;
      [|apply occurs_search in Hplayer; contradiction].
    unfold search at 1. rewrite (search_from_skip I win_re pre None _ Hleft), win_73_here.
    vm_compute. reflexivity.
  - intros l Hl.
    destruct (search I (line_player_re 1) l) eqn:Ep; [|now left].
    destruct (search I win_re l) eqn:Ew; [|now right].
    exfalso. apply (Hbefore l Hl). split; eapply search_occurs; eassumption.
Qed.

Lemma tagged_line_first_match_witness :
  parse_winrate ("Player 2 win percentage: 41%" +:+ LF_s
                 +:+ "win percentage: 73% (Player 1)" +:+ LF_s) 1
  = Returned (Some 0.73%float).
Proof.
  apply (tagged_line_first_match _ ["Player 2 win percentage: 41%"] [] "" " (Player 1)").
  - vm_compute. reflexivity.
  - intros l [<-|[]] [H _]. apply occurs_search in H. now apply H.
  - eapply search_occurs. vm_compute. reflexivity.
  - intros a b E Hb. destruct a; [|discriminate E]. simpl in E. congruence.
Defined.

(** C7 as stated fails for the second sentinel: the description of the
    exception is part of it, and a description that holds a
    win-percentage pattern is read as a win rate. When the command
    ['win percentage 50' out/b_move0.csv] cannot be started, the sentinel
    names the missing program and the extraction yields 0.5. *)
Lemma error_sentinel_with_pattern :
  let description := "[Errno 2] No such file or directory: 'win percentage 50'" in
  captured_output (subprocess_run (SpawnFails description) (Some 60%Z))
  = Some ("SIMULATOR_ERROR: " +:+ description)
  ∧ parse_winrate ("SIMULATOR_ERROR: " +:+ description) 1 = Returned (Some 0.5%float)
  ∧ parse_winrate ("SIMULATOR_ERROR: " +:+ description) 1 ≠ Returned None.
Proof.
  cbv zeta. split; [reflexivity|].
  assert (E : parse_winrate
                ("SIMULATOR_ERROR: "
                 +:+ "[Errno 2] No such file or directory: 'win percentage 50'") 1
              = Returned (Some 0.5%float)) by (vm_compute; reflexivity).
  split; [exact E|]. rewrite E. discriminate.
Qed.

(** C7, amended: a text that holds no win-percentage pattern yields
    "unknown" for every player, and so do the sentinel outputs of
    [run_simulator]: [SIMULATOR_TIMEOUT], and [SIMULATOR_ERROR: ] followed
    by a description whenever the description holds no such pattern. The
    call returns; it does not raise. *)
Theorem no_pattern_unknown (text : string) (player : Z) :
  ¬ occurs I WINRATE_PATTERNS_0 text →
  parse_winrate text player = Returned None
  ∧ captured_output TimeoutExpired = Some "SIMULATOR_TIMEOUT"
  ∧ parse_winrate "SIMULATOR_TIMEOUT" player = Returned None
  ∧ captured_output (OtherException text) = Some ("SIMULATOR_ERROR: " +:+ text)
  ∧ parse_winrate ("SIMULATOR_ERROR: " +:+ text) player = Returned None.
Proof.
  intros H. split; [now apply parse_winrate_no_pattern|].
  split; [reflexivity|]. split.
  - apply parse_winrate_no_pattern, timeout_sentinel_no_pattern.
  - split; [reflexivity|]. now apply parse_winrate_no_pattern, error_sentinel_no_pattern.
Qed.

Lemma no_pattern_unknown_witness :
  parse_winrate "[Errno 2] No such file or directory: 'simulator.py'" 1 = Returned None
  ∧ parse_winrate "SIMULATOR_ERROR: [Errno 2] No such file or directory: 'simulator.py'" 1
    = Returned None.
Proof.
  assert (H : ¬ occurs I WINRATE_PATTERNS_0 "[Errno 2] No such file or directory: 'simulator.py'").
  { intros H. apply occurs_search in H. now apply H. }
  destruct (no_pattern_unknown _ 1 H) as (H1 & _ & _ & _ & H2). split; assumption.
Defined.

(** ** Arrays *)

Lemma nonzero_from_spec (l : list Z) :
  ∀ k0 k, In k (nonzero_from k0 l)
    ↔ (k0 <= k < k0 + List.length l)%nat ∧ List.nth (k - k0) l 0%Z ≠ 0%Z.
Proof.
  induction l as [|x l IH]; intros k0 k; simpl.
  - split; [contradiction | lia].
  - destruct (Z.eqb_spec x 0) as [->|Hx]; simpl; rewrite IH.
    + split.
      * intros [Hk Hn]. split; [lia|].
        replace (k - k0)%nat with (S (k - S k0)) by lia. exact Hn.
      * intros [Hk Hn]. destruct (k - k0)%nat as [|j] eqn:Ej; [contradiction|].
        split; [lia|]. replace (k - S k0)%nat with j by lia. exact Hn.
    + split.
      * intros [<-|[Hk Hn]].
        -- split; [lia|]. now rewrite Nat.sub_diag.
        -- split; [lia|]. replace (k - k0)%nat with (S (k - S k0)) by lia. exact Hn.
      * intros [Hk Hn]. destruct (k - k0)%nat as [|j] eqn:Ej.
        -- left. lia.
        -- right. split; [lia|]. replace (k - S k0)%nat with j by lia. exact Hn.
Qed.

Lemma flat_index (n r c : nat) :
  (c < n)%nat → ((r * n + c) / n = r)%nat ∧ ((r * n + c) mod n = c)%nat.
Proof.
  intros Hc. split.
  - rewrite Nat.div_add_l by lia. rewrite Nat.div_small by lia. lia.
  - rewrite Nat.add_comm, Nat.Div0.mod_add. now apply Nat.mod_small.
Qed.

Lemma flat_index_bound (nrows n r c : nat) :
  (r < nrows)%nat → (c < n)%nat → (r * n + c < nrows * n)%nat.
Proof. intros Hr Hc. nia. Qed.

Lemma well_formed_2d (a : ndarray) (nrows n : nat) :
  shape a = [nrows; n] → well_formed a → List.length (data a) = (nrows * n)%nat.
Proof. unfold well_formed. intros -> ->. simpl. lia. Qed.

(** A non-zero cell of the move is among the cells [np.argwhere] lists. *)
Lemma argwhere_nonzero_in (a : ndarray) (nrows n r c : nat) :
  shape a = [nrows; n] → well_formed a → (r < nrows)%nat → (c < n)%nat →
  at_rc a r c ≠ 0%Z → In (r, c) (argwhere_nonzero a).
Proof.
  intros Hs Hwf Hr Hc Hnz. unfold argwhere_nonzero, at_rc, ncols in *. rewrite Hs in *.
  simpl in *. apply in_map_iff. exists (r * n + c)%nat. split.
  - now destruct (flat_index n r c Hc) as [-> ->].
  - apply nonzero_from_spec. rewrite Nat.sub_0_r. split; [|assumption].
    rewrite (well_formed_2d a nrows n Hs Hwf).
    pose proof (flat_index_bound nrows n r c Hr Hc). lia.
Qed.

Lemma where_nonzero_nth (p : list Z) :
  ∀ b k, List.length p = List.length b → (k < List.length p)%nat →
    List.nth k (where_nonzero p b) 0%Z
    = if (List.nth k p 0 =? 0)%Z then List.nth k b 0%Z else List.nth k p 0%Z.
Proof.
  induction p as [|x p IH]; intros b k Hl Hk; simpl in *; [lia|].
  destruct b as [|y b]; [discriminate|]. simpl in *.
  destruct k as [|k]; [reflexivity|]. apply IH; lia.
Qed.

(** ** Claims on the overlay *)

(** C3: for a board and a move of one shape, move passing the obstacle
    check, every cell of the modified board is the cell of the move where
    that one is not zero, and the cell of the board where it is. *)
Theorem overlay_cell (pm_arr board : ndarray) (nrows n r c : nat) :
  shape pm_arr = [nrows; n] → shape board = shape pm_arr →
  well_formed pm_arr → well_formed board →
  touches_obstacle board (argwhere_nonzero pm_arr) = false →
  (r < nrows)%nat → (c < n)%nat →
  shape (overlay pm_arr board) = shape board
  ∧ at_rc (overlay pm_arr board) r c
    = if (at_rc pm_arr r c =? 0)%Z then at_rc board r c else at_rc pm_arr r c.
Proof.
  intros Hs Hsb Hwf Hwfb _ Hr Hc. split; [now rewrite Hsb|].
  unfold at_rc, ncols, overlay. simpl. rewrite Hsb, Hs. simpl.
  apply where_nonzero_nth.
  - rewrite (well_formed_2d pm_arr nrows n Hs Hwf).
    rewrite (well_formed_2d board nrows n); [reflexivity | congruence | assumption].
  - rewrite (well_formed_2d pm_arr nrows n Hs Hwf). now apply flat_index_bound.
Qed.

Lemma overlay_cell_witness :
  let pm_arr := np_array [[0; 0; 0]; [1; 0; 0]; [0; 0; 0]]%Z in
  let board := {| shape := [3; 3]%nat; data := [0; 2; 0; 0; 0; 3; 0; 0; 0]%Z |} in
  at_rc (overlay pm_arr board) 1 0 = 1%Z ∧ at_rc (overlay pm_arr board) 1 2 = 3%Z.
Proof.
  cbv zeta. split.
  - apply (overlay_cell (np_array [[0; 0; 0]; [1; 0; 0]; [0; 0; 0]]%Z)
             {| shape := [3; 3]%nat; data := [0; 2; 0; 0; 0; 3; 0; 0; 0]%Z |} 3 3 1 0);
      try reflexivity; lia.
  - apply (overlay_cell (np_array [[0; 0; 0]; [1; 0; 0]; [0; 0; 0]]%Z)
             {| shape := [3; 3]%nat; data := [0; 2; 0; 0; 0; 3; 0; 0; 0]%Z |} 3 3 1 2);
      try reflexivity; lia.
Defined.

(** ** The runs of variant B *)

Lemma files_print (line : string) (w : world) : files (print line w) = files w.
Proof. reflexivity. Qed.

Lemma files_writerow_other (path p : string) (r : list field) (w : world) :
  p ≠ path → files (writerow path r w) !! p = files w !! p.
Proof.
  intros Hp. unfold writerow.
  destruct (files w !! path) as [[rows|a|s]|]; simpl; now rewrite lookup_insert_ne.
Qed.

Lemma files_writerow_table (path : string) (r : list field) (w : world) :
  is_table (files (writerow path r w) !! path).
Proof.
  unfold writerow, is_table.
  destruct (files w !! path) as [[rows|a|s]|]; simpl; rewrite lookup_insert_eq; eauto.
Qed.

Section HarnessFacts.

Variable possible_moves : list (list (list Z)).
Variable format_template : string → string → result string.
Variable shlex_split : string → result (list string).
Variable simulator : list string → gmap string content → proc.

Local Abbreviation run_sim := (VariantB.run_simulator format_template shlex_split simulator).
Local Abbreviation pair := (VariantB.process_pair format_template shlex_split simulator).
Local Abbreviation moves := (VariantB.for_moves format_template shlex_split simulator).
Local Abbreviation boards := (VariantB.for_files possible_moves format_template shlex_split simulator).
Local Abbreviation main := (VariantB.main possible_moves format_template shlex_split simulator).

Lemma run_simulator_B_files (template path : string) (t : Z) (w : world) :
  files (snd (run_sim template path t w)) = files w.
Proof.
  unfold VariantB.run_simulator. destruct (build_cmd _ _ _ _); [|reflexivity].
  destruct (captured_output _); reflexivity.
Qed.

(** A pair writes at most two files: a new artifact, at a path that held
    nothing, and the results table. *)
Lemma process_pair_frame (a : args_B) (rp : string) (src : src_csv) (mi : nat)
    (pm : list (list Z)) (w : world) (p : string) (c : content) :
  p ≠ rp → files w !! p = Some c → files (snd (pair a rp src mi pm w)) !! p = Some c.
Proof.
  intros Hp Hc. unfold VariantB.process_pair.
  destruct (negb _); [exact Hc|].
  destruct (touches_obstacle _ _); [exact Hc|].
  set (out_path := path_join (output_dir a) (out_name (stem src) mi)).
  set (w1 := match files w !! out_path with Some _ => _ | None => _ end).
  assert (H1 : files w1 !! p = Some c).
  { subst w1. destruct (files w !! out_path) eqn:Eo; [exact Hc|]. simpl.
    rewrite lookup_insert_ne; [exact Hc|]. intros ->. congruence. }
  pose proof (run_simulator_B_files (sim_cmd a) out_path (timeout a) w1) as Hf.
  destruct (run_sim (sim_cmd a) out_path (timeout a) w1) as [[sim_out|e] w2]; simpl in Hf.
  - destruct (parse_winrate sim_out 1) as [win|e]; simpl; [|now rewrite Hf].
    destruct (argwhere_nonzero (np_array pm)) as [|[r c0] nz]; simpl;
      rewrite files_writerow_other by assumption; now rewrite Hf.
  - simpl. now rewrite Hf.
Qed.

Lemma process_pair_table (a : args_B) (rp : string) (src : src_csv) (mi : nat)
    (pm : list (list Z)) (w : world) :
  is_table (files w !! rp) → is_table (files (snd (pair a rp src mi pm w)) !! rp).
Proof.
  intros Ht. unfold VariantB.process_pair.
  destruct (negb _); [exact Ht|].
  destruct (touches_obstacle _ _); [exact Ht|].
  set (out_path := path_join (output_dir a) (out_name (stem src) mi)).
  set (w1 := match files w !! out_path with Some _ => _ | None => _ end).
  assert (H1 : is_table (files w1 !! rp)).
  { subst w1. destruct (files w !! out_path) eqn:Eo; [exact Ht|]. simpl.
    rewrite lookup_insert_ne; [exact Ht|]. intros ->.
    destruct Ht as [rows Ht]. congruence. }
  pose proof (run_simulator_B_files (sim_cmd a) out_path (timeout a) w1) as Hf.
  destruct (run_sim (sim_cmd a) out_path (timeout a) w1) as [[sim_out|e] w2]; simpl in Hf.
  - destruct (parse_winrate sim_out 1) as [win|e]; simpl; [|now rewrite Hf].
    destruct (argwhere_nonzero (np_array pm)) as [|[r c0] nz]; simpl;
      apply files_writerow_table.
  - simpl. now rewrite Hf.
Qed.

Lemma for_moves_frame (a : args_B) (rp : string) (src : src_csv) (p : string) (c : content)
    (pms : list (list (list Z))) :
  p ≠ rp → ∀ mi w, files w !! p = Some c → files (snd (moves a rp src mi pms w)) !! p = Some c.
Proof.
  intros Hp. induction pms as [|pm pms IH]; intros mi w Hc; simpl; [exact Hc|].
  pose proof (process_pair_frame a rp src mi pm w p c Hp Hc) as H.
  destruct (pair a rp src mi pm w) as [[|e] w']; simpl in H; [now apply IH | exact H].
Qed.

Lemma for_moves_table (a : args_B) (rp : string) (src : src_csv)
    (pms : list (list (list Z))) :
  ∀ mi w, is_table (files w !! rp) → is_table (files (snd (moves a rp src mi pms w)) !! rp).
Proof.
  induction pms as [|pm pms IH]; intros mi w Ht; simpl; [exact Ht|].
  pose proof (process_pair_table a rp src mi pm w Ht) as H.
  destruct (pair a rp src mi pm w) as [[|e] w']; simpl in H; [now apply IH | exact H].
Qed.

Lemma for_files_frame (a : args_B) (rp : string) (p : string) (c : content)
    (csv_files : list src_csv) :
  p ≠ rp → ∀ w, files w !! p = Some c → files (snd (boards a rp csv_files w)) !! p = Some c.
Proof.
  intros Hp. induction csv_files as [|src rest IH]; intros w Hc; simpl; [exact Hc|].
  pose proof (for_moves_frame a rp src p c possible_moves Hp 0%nat w Hc) as H.
  destruct (moves a rp src 0%nat possible_moves w) as [[|e] w']; simpl in H;
    [now apply IH | exact H].
Qed.

Lemma for_files_table (a : args_B) (rp : string) (csv_files : list src_csv) :
  ∀ w, is_table (files w !! rp) → is_table (files (snd (boards a rp csv_files w)) !! rp).
Proof.
  induction csv_files as [|src rest IH]; intros w Ht; simpl; [exact Ht|].
  pose proof (for_moves_table a rp src possible_moves 0%nat w Ht) as H.
  destruct (moves a rp src 0%nat possible_moves w) as [[|e] w']; simpl in H;
    [now apply IH | exact H].
Qed.

(** A run changes no existing file but the results table. *)
Lemma main_B_frame (a : args_B) (csv_files : list src_csv) (w : world) (p : string) (c : content) :
  p ≠ results_path_of (output_dir a) (results_file a) →
  files w !! p = Some c → files (snd (main a csv_files w)) !! p = Some c.
Proof.
  intros Hp Hc. unfold VariantB.main. destruct csv_files as [|src rest]; [exact Hc|].
  apply for_files_frame; [assumption|].
  rewrite files_writerow_other by assumption. simpl. now rewrite lookup_insert_ne.
Qed.

(** After a run that found boards, the results path holds a table. *)
Lemma main_B_table (a : args_B) (src : src_csv) (rest : list src_csv) (w : world) :
  is_table (files (snd (main a (src :: rest) w))
            !! results_path_of (output_dir a) (results_file a)).
Proof. unfold VariantB.main. apply for_files_table, files_writerow_table. Qed.


(** *** Claims on the runs of variant B *)

(** C4: a pair whose move has another shape than the board, or has a
    non-zero cell where the board holds the obstacle value 3, is skipped:
    the pair prints one line and changes nothing else (no artifact, no
    invocation of the simulator, no row), it does not crash, and the loop
    goes on with the next move. *)
Theorem mismatch_or_obstacle_skips (a : args_B) (rp : string) (src : src_csv) (mi : nat)
    (pm : list (list Z)) (rest : list (list (list Z))) (w : world) :
  shape (np_array pm) ≠ shape (board src)
  ∨ (shape (np_array pm) = shape (board src)
     ∧ ∃ nrows n r c,
         shape (np_array pm) = [nrows; n] ∧ well_formed (np_array pm)
         ∧ (r < nrows)%nat ∧ (c < n)%nat
         ∧ at_rc (np_array pm) r c ≠ 0%Z ∧ at_rc (board src) r c = 3%Z) →
  ∃ line,
    pair a rp src mi pm w = (Done, print line w)
    ∧ files (print line w) = files w
    ∧ invocations (print line w) = invocations w
    ∧ console (print line w) = (console w ++ [line])%list
    ∧ moves a rp src mi (pm :: rest) w = moves a rp src (S mi) rest (print line w).
Proof.
  intros H.
  assert (Hp : ∃ line, pair a rp src mi pm w = (Done, print line w)).
  { unfold VariantB.process_pair. destruct H as [Hs|(Hs & nrows & n & r & c & H2 & Hwf & Hr & Hc & Hnz & H3)].
    - rewrite bool_decide_eq_false_2 by assumption. simpl. eauto.
    - rewrite bool_decide_eq_true_2 by assumption. simpl.
      assert (Ht : touches_obstacle (board src) (argwhere_nonzero (np_array pm)) = true).
      { unfold touches_obstacle. apply existsb_exists. exists (r, c). split.
        - eapply argwhere_nonzero_in; eassumption.
        - simpl. now apply Z.eqb_eq. }
      rewrite Ht. eauto. }
  destruct Hp as [line Hp]. exists line. repeat split; try assumption.
  simpl. now rewrite Hp.
Qed.

(** C8: the artifact of a pair goes to the path made of the output
    folder, the stem of the board file and the move index; a file found
    there is left as it is; and an artifact that a run has generated
    holds the same board after a second run with the same arguments. *)
Theorem artifacts_reused (a : args_B) :
  (∀ rp src mi pm w c,
     let out_path := path_join (output_dir a) (out_name (stem src) mi) in
     out_path ≠ rp → files w !! out_path = Some c →
     files (snd (pair a rp src mi pm w)) !! out_path = Some c)
  ∧ (∀ csv_files csv_files' w0 path g,
       let w1 := snd (main a csv_files w0) in
       let w2 := snd (main a csv_files' w1) in
       files w0 !! path = None → files w1 !! path = Some (Grid g) →
       files w2 !! path = Some (Grid g)).
Proof.
  split.
  - intros rp src mi pm w c out_path Hne Hc. now apply process_pair_frame.
  - intros csv_files csv_files' w0 path g w1 w2 H0 H1. subst w2.
    apply main_B_frame; [|exact H1]. intros ->. subst w1.
    destruct csv_files as [|src rest].
    + simpl in H1. congruence.
    + destruct (main_B_table a src rest w0) as [rows Ht]. congruence.
Qed.

(** C10: with no board file the run prints its notice and stops: no file
    is created or changed, the results table included, and no simulator
    is invoked. *)
Theorem no_boards_no_table (a : args_B) (w : world) :
  main a [] w = (Done, print ("No CSV files found in " +:+ input_dir a) w)
  ∧ files (snd (main a [] w)) = files w
  ∧ files (snd (main a [] w)) !! results_path_of (output_dir a) (results_file a)
    = files w !! results_path_of (output_dir a) (results_file a)
  ∧ invocations (snd (main a [] w)) = invocations w.
Proof. repeat split. Qed.

Lemma run_simulator_B_returns (template path : string) (t : Z) (w : world)
    (cmd : list string) :
  build_cmd format_template shlex_split template path = Returned cmd →
  ∃ out w', run_sim template path t w = (Returned out, w').
Proof.
  intros Hb. unfold VariantB.run_simulator. rewrite Hb.
  destruct (simulator cmd (files w)) as [secs out| |e]; simpl; eauto.
  destruct (t <? secs)%Z; simpl; eauto.
Qed.

(** The row of a pair that is not skipped, when the simulator command
    can be built: the snippet column holds the empty text whatever the
    simulator printed. *)
Lemma process_pair_row (a : args_B) (rp : string) (src : src_csv) (mi : nat)
    (pm : list (list Z)) (w : world) (cmd : list string) :
  shape (np_array pm) = shape (board src) →
  touches_obstacle (board src) (argwhere_nonzero (np_array pm)) = false →
  build_cmd format_template shlex_split (sim_cmd a)
    (path_join (output_dir a) (out_name (stem src) mi)) = Returned cmd →
  ∃ name_f mi_f row_f col_f win_f path_f w',
    pair a rp src mi pm w
    = (Done, writerow rp [name_f; mi_f; row_f; col_f; win_f; FStr ""; path_f] w').
Proof.
  intros Hs Ht Hb. unfold VariantB.process_pair.
  rewrite bool_decide_eq_true_2 by assumption. cbn [negb]. rewrite Ht.
  set (w1 := match files w !! _ with Some _ => _ | None => _ end).
  destruct (run_simulator_B_returns (sim_cmd a) _ (timeout a) w1 cmd Hb) as (out & w2 & ->).
  destruct (parse_winrate_returns out 1) as [win ->].
  destruct (argwhere_nonzero (np_array pm)) as [|[r c] nz]; eauto 10.
Qed.

(** *** The timeout in the two variants *)

(** Variant B waits no longer than the timeout, and a process that takes
    longer, or never ends, gives the sentinel and an unknown win rate. *)
Lemma run_simulator_B_bounded (template path : string) (t : Z) (w : world)
    (cmd : list string) :
  build_cmd format_template shlex_split template path = Returned cmd →
  (∃ secs, blocking_wait (simulator cmd (files w)) (Some t) = Some secs
           ∧ (0 <= t → secs <= t)%Z)
  ∧ ((∃ secs out, simulator cmd (files w) = Exits secs out ∧ (t < secs)%Z)
     ∨ simulator cmd (files w) = Hangs →
     fst (run_sim template path t w) = Returned "SIMULATOR_TIMEOUT"
     ∧ parse_winrate "SIMULATOR_TIMEOUT" 1 = Returned None).
Proof.
  intros Hb. split.
  - destruct (simulator cmd (files w)) as [secs out| |e]; simpl; eauto with lia.
  - intros H. split; [|reflexivity]. unfold VariantB.run_simulator. rewrite Hb.
    destruct H as [(secs & out & -> & Hlt)| ->]; simpl; [|reflexivity].
    apply Z.ltb_lt in Hlt. now rewrite Hlt.
Qed.

Lemma run_simulator_A_any_timeout (template : string) (move_idx : nat) (t t' : Z) (w : world) :
  VariantA.run_simulator format_template shlex_split simulator template move_idx t w
  = VariantA.run_simulator format_template shlex_split simulator template move_idx t' w.
Proof. reflexivity. Qed.

End HarnessFacts.

(** ** Runs on concrete inputs *)

(** C1, at the input that breaks it: in variant A the timeout given to
    [run_simulator] does not reach [subprocess.run]. With a timeout of 60
    seconds and a simulator that reports after 100 seconds the call waits
    the 100 seconds and returns the report, not the sentinel, and the win
    rate is 0.6, not unknown; with a simulator that never ends the call
    does not return. Variant B, on the same simulator, gives the
    sentinel. *)
Theorem variant_A_wait_unbounded :
  let report := "Player 1 win percentage: 60%" in
  let run_A sim :=
    VariantA.run_simulator (format_field "move") split_spaces sim
      "python simulator.py --move {move}" 0 60%Z empty_world in
  fst (run_A (sim_reports 100 report)) = Some (Returned report)
  ∧ invocations (snd (run_A (sim_reports 100 report)))
    = [(["python"; "simulator.py"; "--move"; "0"], None)]
  ∧ blocking_wait (Exits 100 report) None = Some 100%Z
  ∧ parse_winrate report 1 = Returned (Some 0.6%float)
  ∧ fst (run_A sim_hangs) = None
  ∧ blocking_wait Hangs None = None
  ∧ fst (VariantB.run_simulator (format_field "input") split_spaces (sim_reports 100 report)
           "python simulator.py --board {input}" "out/b_move0.csv" 60%Z empty_world)
    = Returned "SIMULATOR_TIMEOUT".
Proof. cbv zeta. repeat split; vm_compute; reflexivity. Qed.

(** C9, at the input that breaks it: the simulator prints
    [Player 1 win percentage: 60%] for the one move on the one board; the
    row written has the seven fields of the header, with the win rate 0.6
    and the artifact path, and its snippet column holds the empty text, not
    the snippet computed from the output. *)
Theorem snippet_column_empty :
  let report := "Player 1 win percentage: 60%" in
  let w := snd (VariantB.main one_move (format_field "input") split_spaces (sim_reports 2 report)
                  args_demo [empty_board] empty_world) in
  files w !! "out/move_evals.csv"
  = Some (Table [header_B;
                 [FStr "b.csv"; FInt 0; FInt 1; FInt 0; FFloat 0.6%float;
                  FStr ""; FStr "out/b_move0.csv"]])
  ∧ snippet_of report = report.
Proof. cbv zeta. split; vm_compute; reflexivity. Qed.

Lemma mismatch_or_obstacle_skips_witness :
  ∃ line,
    VariantB.process_pair (format_field "input") split_spaces (sim_reports 2 "")
      args_demo "out/move_evals.csv" blocked_board 0
      [[0; 0; 0]; [1; 0; 0]; [0; 0; 0]]%Z empty_world
    = (Done, print line empty_world).
Proof.
  destruct (mismatch_or_obstacle_skips (format_field "input") split_spaces (sim_reports 2 "")
              args_demo "out/move_evals.csv" blocked_board 0
              [[0; 0; 0]; [1; 0; 0]; [0; 0; 0]]%Z [] empty_world) as (line & H & _).
  - right. split; [reflexivity|]. exists 3%nat, 3%nat, 1%nat, 0%nat.
    repeat split; try reflexivity; try lia. discriminate.
  - exists line. exact H.
Defined.

Lemma artifacts_reused_witness :
  let run w :=
    snd (VariantB.main one_move (format_field "input") split_spaces
           (sim_reports 2 "Player 1 win percentage: 60%") args_demo [empty_board] w) in
  files (run (run empty_world)) !! "out/b_move0.csv"
  = Some (Grid {| shape := [3; 3]%nat; data := [0; 0; 0; 1; 0; 0; 0; 0; 0]%Z |}).
Proof.
  cbv zeta.
  apply (proj2 (artifacts_reused one_move (format_field "input") split_spaces
                  (sim_reports 2 "Player 1 win percentage: 60%") args_demo)
           [empty_board] [empty_board] empty_world "out/b_move0.csv").
  - reflexivity.
  - vm_compute. reflexivity.
Defined.

(** * Further properties *)

(** ** The win-rate extractor *)

(** X1: [float] never fails inside [parse_winrate]: the group handed to it is
    always a numeral, so the call raises neither a [ValueError] nor a
    [TypeError], whatever the text and the player. *)
Theorem parse_winrate_never_raises (text : string) (player : Z) (exn : string) :
  parse_winrate text player ≠ Raised exn.
Proof.
  destruct (parse_winrate_shape text player) as [H|(num & val & _ & _ & H)];
    rewrite H; discriminate.
Qed.

Lemma replace_char_idem (old new : ascii) (s : string) :
  Ascii.eqb new old = false →
  replace_char old new (replace_char old new s) = replace_char old new s.
Proof.
  intros Hn. induction s as [|c s IH]; simpl; [reflexivity|]. rewrite IH.
  destruct (Ascii.eqb c old) eqn:Hc; [now rewrite Hn | now rewrite Hc].
Qed.

Lemma replace_char_empty (old new : ascii) (s : string) :
  String.eqb (replace_char old new s) "" = String.eqb s "".
Proof. destruct s; reflexivity. Qed.

(** X2: a comma and a period in the text are the same to the extractor. *)
Theorem commas_read_as_periods (text : string) (player : Z) :
  parse_winrate (replace_char "," "." text) player = parse_winrate text player.
Proof.
  unfold parse_winrate.
  now rewrite replace_char_empty, replace_char_idem.
Qed.

(** *** A text that does not mention the player *)

Lemma context_free_lits (s : string) : context_free (lits s) = true.
Proof. induction s as [|c s IH]; simpl; [reflexivity | exact IH]. Qed.

Lemma dot_free_lits (s : string) : dot_free (lits s) = true.
Proof. induction s as [|c s IH]; simpl; [reflexivity | exact IH]. Qed.

Lemma excludes_lits (f : flags) (x : ascii) (s : string) :
  all_chars (fun c => negb (eq_char f c x)) s = true → excludes f (lits s) x = true.
Proof.
  induction s as [|c s IH]; simpl; [reflexivity|].
  intros H. apply andb_true_iff in H as [Hc Hs]. now rewrite Hc, IH.
Qed.

Lemma all_chars_weaken (P Q : ascii → bool) (s : string) :
  (∀ c, P c = true → Q c = true) → all_chars P s = true → all_chars Q s = true.
Proof.
  intros HPQ. induction s as [|c s IH]; simpl; [reflexivity|].
  intros H. apply andb_true_iff in H as [Hc Hs]. now rewrite (HPQ c Hc), IH.
Qed.

Lemma string_of_uint_digits (d : Decimal.uint) :
  all_chars sign_or_digit (NilEmpty.string_of_uint d) = true.
Proof. induction d; simpl; try reflexivity; exact IHd. Qed.

Lemma str_of_int_chars (n : Z) : all_chars sign_or_digit (str_of_int n) = true.
Proof.
  unfold str_of_int, NilZero.string_of_int, NilZero.string_of_uint.
  destruct (Z.to_int n) as [d|d]; destruct d; try reflexivity;
    simpl; apply string_of_uint_digits.
Qed.

Lemma sign_or_digit_not_period (c : ascii) :
  sign_or_digit c = true → negb (eq_char I c ".") = true.
Proof.
  destruct c as [[] [] [] [] [] [] [] []]; vm_compute; intros H;
    try discriminate H; reflexivity.
Qed.

Lemma context_free_player_tag (player : Z) : context_free (player_tag player) = true.
Proof. unfold player_tag. simpl. apply context_free_lits. Qed.

Lemma dot_free_player_tag (player : Z) : dot_free (player_tag player) = true.
Proof. unfold player_tag. simpl. apply dot_free_lits. Qed.

Lemma excludes_player_tag (player : Z) : excludes I (player_tag player) "." = true.
Proof.
  unfold player_tag. simpl. apply excludes_lits.
  eapply all_chars_weaken; [exact sign_or_digit_not_period | apply str_of_int_chars].
Qed.

(** A match of a pattern that begins with the tag begins with a match of
    the tag. *)
Lemma tag_of_longer (f : flags) (player : Z) (r : re) (prev : option ascii)
    (u rest : string) (g g' : option string) :
  matches f (lits "Player" ⋅ Star Space ⋅ lits (str_of_int player) ⋅ r) prev u rest g g' →
  ∃ u1 u2 g1, u = u1 +:+ u2 ∧ matches f (player_tag player) prev u1 (u2 +:+ rest) g g1.
Proof.
  intros (uL & u' & g1 & -> & HL & uS & u'' & g2 & -> & HS & uN & uR & g3 & -> & HN & HR).
  exists (uL +:+ uS +:+ uN), uR, g3. split; [now rewrite !app_assoc_s|].
  exists uL, (uS +:+ uN), g1. split; [reflexivity|]. split.
  - eapply matches_context; [apply context_free_lits | exact HL].
  - exists uS, uN, g2. split; [reflexivity|]. split.
    + eapply matches_context; [reflexivity | exact HS].
    + eapply matches_context; [apply context_free_lits | exact HN].
Qed.

Lemma occurs_tag_of_longer (f : flags) (player : Z) (r : re) (prev : option ascii)
    (text : string) (g : option string) :
  occurs_from f (lits "Player" ⋅ Star Space ⋅ lits (str_of_int player) ⋅ r) prev text g →
  ∃ g1, occurs_from f (player_tag player) prev text g1.
Proof.
  intros (pre & u & post & -> & H).
  apply tag_of_longer in H as (u1 & u2 & g1 & -> & H).
  exists g1, pre, u1, (u2 +:+ post). split; [now rewrite !app_assoc_s | exact H].
Qed.

(** A pattern free of the new character occurs in the replaced text only
    where it occurs in the text. *)
Lemma occurs_from_replace_excluded (f : flags) (r : re) (old new : ascii)
    (prev prev' : option ascii) (text : string) (g : option string) :
  context_free r = true → excludes f r new = true →
  occurs_from f r prev (replace_char old new text) g → occurs_from f r prev' text g.
Proof.
  intros Hcf Hex (pre & u & post & E & H).
  apply replace_char_app_inv in E as (pre' & t1 & -> & Hpre & E).
  apply replace_char_app_inv in E as (v & post' & -> & Hv & Hpost).
  pose proof (excludes_sound f r new Hex _ _ _ _ _ H) as Hc.
  assert (Ev : v = u).
  { rewrite <- Hv. symmetry. apply replace_char_id. now rewrite Hv. }
  subst v. exists pre', u, post'. split; [reflexivity|].
  eapply matches_context; eassumption.
Qed.

Lemma scan_lines_none (player : Z) (lines : list string) :
  (∀ l, In l lines → search I (line_player_re player) l = None) →
  scan_lines player lines = None.
Proof.
  induction lines as [|l lines IH]; simpl; intros H; [reflexivity|].
  rewrite (H l (or_introl eq_refl)). apply IH. auto.
Qed.

(** Without a mention of the player only the last stage can match. *)
Lemma untagged_last_resort (text : string) (player : Z) :
  ¬ occurs I (player_tag player) text →
  parse_winrate text player
  = if String.eqb text "" then Returned None
    else match search I WINRATE_PATTERNS_0 (replace_char "," "." text) with
         | Some m => winrate_of_match m
         | None => Returned None
         end.
Proof.
  intros Hraw. unfold parse_winrate. destruct (String.eqb text ""); [reflexivity|].
  assert (Hn : ∀ prev g, ¬ occurs_from I (player_tag player) prev (replace_char "," "." text) g).
  { intros prev g H. apply Hraw. exists g.
    eapply occurs_from_replace_excluded;
      [apply context_free_player_tag | apply excludes_player_tag | exact H]. }
  clear Hraw. set (tn := replace_char "," "." text) in *.
  rewrite scan_lines_none.
  - destruct (search I_S (combined_re player) tn) as [m|] eqn:Ec; [|reflexivity].
    exfalso. apply search_from_sound in Ec.
    apply occurs_tag_of_longer in Ec as [g1 (pre & u & post & E & H)].
    apply (Hn None g1). exists pre, u, post. split; [exact E|].
    eapply matches_flags; [| apply dot_free_player_tag | exact H]. reflexivity.
  - intros l Hl. destruct (search I (line_player_re player) l) as [m|] eqn:Ep; [|reflexivity].
    exfalso. apply search_from_sound in Ep.
    apply occurs_tag_of_longer in Ep as [g1 H].
    apply splitlines_piece in Hl as (a & b & E).
    apply (Hn None g1). rewrite E.
    eapply occurs_from_piece; [apply context_free_player_tag | exact H].
Qed.

(** *** The first line that mentions the player and holds a win percentage *)

Lemma all_chars_app (P : ascii → bool) (a b : string) :
  all_chars P (a +:+ b) = all_chars P a && all_chars P b.
Proof. induction a as [|x a IH]; simpl; [reflexivity|]. now rewrite IH, andb_assoc. Qed.

Lemma linebreak_CR (c : ascii) : Chr.is_linebreak c = false → Ascii.eqb c Chr.CR = false.
Proof.
  intros H. destruct (Ascii.eqb_spec c Chr.CR) as [->|]; [|reflexivity].
  vm_compute in H. discriminate.
Qed.

(** A line holds no line boundary. *)
Lemma splitlines_from_unbroken (n : nat) :
  ∀ s cur line, (String.length s <= n)%nat →
    all_chars (fun c => negb (Chr.is_linebreak c)) cur = true →
    In line (splitlines_from cur s) →
    all_chars (fun c => negb (Chr.is_linebreak c)) line = true.
Proof.
  induction n as [|n IH]; intros s cur line Hn Hcur H.
  - destruct s as [|c s]; [|simpl in Hn; lia]. simpl in H.
    destruct (String.eqb cur ""); simpl in H; [contradiction|].
    now destruct H as [<-|[]].
  - destruct s as [|c s]; simpl in H.
    + destruct (String.eqb cur ""); simpl in H; [contradiction|].
      now destruct H as [<-|[]].
    + simpl in Hn.
      assert (Hbreak : ∀ t, (String.length t <= n)%nat →
                In line (cur :: splitlines_from "" t) →
                all_chars (fun c => negb (Chr.is_linebreak c)) line = true).
      { intros t Ht [<-|Hin]; [assumption|]. now apply (IH t "" line Ht). }
      destruct (Ascii.eqb c Chr.CR).
      * destruct s as [|d s]; [apply (Hbreak ""); simpl; [lia | assumption]|].
        simpl in Hn. destruct (Ascii.eqb d Chr.LF).
        -- apply (Hbreak s); [lia | assumption].
        -- apply (Hbreak (String d s)); [simpl; lia | assumption].
      * destruct (Chr.is_linebreak c) eqn:Hc.
        -- apply (Hbreak s); [lia | assumption].
        -- apply (IH s (cur +:+ String c "") line); [lia | | assumption].
           rewrite all_chars_app, Hcur. simpl. now rewrite Hc.
Qed.

(** A text without line boundary is its own single line. *)
Lemma splitlines_from_single (l : string) :
  ∀ cur, all_chars (fun c => negb (Chr.is_linebreak c)) l = true →
    cur +:+ l ≠ "" → splitlines_from cur l = [cur +:+ l].
Proof.
  induction l as [|c l IH]; intros cur Hl Hne; simpl.
  - rewrite app_nil_r_s in *. now rewrite (eqb_nonempty cur Hne).
  - simpl in Hl. apply andb_true_iff in Hl as [Hc Hl]. apply negb_true_iff in Hc.
    rewrite (linebreak_CR c Hc), Hc, IH; [now rewrite app_assoc_s | assumption |].
    rewrite app_assoc_s. simpl. destruct cur; discriminate.
Qed.

Lemma has_char_replaced (old new : ascii) (s : string) :
  Ascii.eqb new old = false → has_char old (replace_char old new s) = false.
Proof.
  intros Hn. induction s as [|c s IH]; simpl; [reflexivity|]. rewrite IH, orb_false_r.
  destruct (Ascii.eqb c old) eqn:Hc; assumption.
Qed.

(** A line of the text with its commas replaced is a text that the
    extractor reads as itself: one line, no comma. *)
Lemma line_alone (text line : string) :
  In line (splitlines (replace_char "," "." text)) → line ≠ "" →
  replace_char "," "." line = line ∧ splitlines line = [line].
Proof.
  intros Hin Hne. split.
  - apply replace_char_absent.
    destruct (splitlines_piece _ _ Hin) as (a & b & E).
    pose proof (has_char_replaced "," "." text eq_refl) as Hc.
    rewrite E, !has_char_app in Hc.
    apply orb_false_iff in Hc as [_ Hc]. now apply orb_false_iff in Hc as [Hc _].
  - apply (splitlines_from_single line ""); [|exact Hne].
    eapply (splitlines_from_unbroken _ _ "" line (Nat.le_refl _)); [reflexivity | exact Hin].
Qed.

(** X4: the answer for a text is the answer for the first of its lines that
    both mentions the player and holds a win percentage, taken alone:
    nothing else in the text counts. *)
Theorem first_tagged_line_decides (text : string) (player : Z)
    (before after : list string) (line : string) :
  splitlines (replace_char "," "." text) = (before ++ line :: after)%list →
  (∀ l, In l before → ¬ (occurs I (line_player_re player) l ∧ occurs I win_re l)) →
  occurs I (line_player_re player) line → occurs I win_re line →
  parse_winrate text player = parse_winrate line player.
Proof.
  intros Hlines Hbefore Hp Hw.
  apply occurs_search in Hp. apply occurs_search in Hw.
  assert (Hne : line ≠ "") by (intros ->; now apply Hw).
  destruct (line_alone text line) as [Hrep Hsingle]; [|exact Hne|].
  { rewrite Hlines. apply in_or_app. right. now left. }
  unfold parse_winrate.
  destruct (String.eqb_spec text "") as [->|_]; [destruct before; discriminate Hlines|].
  rewrite (eqb_nonempty line Hne), Hrep, Hsingle, Hlines, scan_lines_skip.
  - cbn [scan_lines].
    destruct (search I (line_player_re player) line); [|contradiction].
    destruct (search I win_re line); [reflexivity | contradiction].
  - intros l Hl.
    destruct (search I (line_player_re player) l) eqn:Ep; [|now left].
    destruct (search I win_re l) eqn:Ew; [|now right].
    exfalso. apply (Hbefore l Hl). split; eapply search_occurs; eassumption.
Qed.

Lemma first_tagged_line_decides_witness :
  parse_winrate ("Player 2 win percentage: 41%" +:+ LF_s
                 +:+ "Player 1 win percentage: 73%" +:+ LF_s
                 +:+ "Player 1 win percentage: 10%") 1
  = parse_winrate "Player 1 win percentage: 73%" 1.
Proof.
  apply (first_tagged_line_decides _ 1 ["Player 2 win percentage: 41%"]
           ["Player 1 win percentage: 10%"]).
  - vm_compute. reflexivity.
  - intros l [<-|[]] [H _]. apply occurs_search in H. now apply H.
  - eapply search_occurs. vm_compute. reflexivity.
  - eapply search_occurs. vm_compute. reflexivity.
Defined.

(** ** The overlay *)

Lemma overlay_at_rc (pm_arr board : ndarray) (nrows n r c : nat) :
  shape pm_arr = [nrows; n] → shape board = shape pm_arr →
  well_formed pm_arr → well_formed board →
  (r < nrows)%nat → (c < n)%nat →
  at_rc (overlay pm_arr board) r c
  = if (at_rc pm_arr r c =? 0)%Z then at_rc board r c else at_rc pm_arr r c.
Proof.
  intros Hs Hsb Hwf Hwfb Hr Hc.
  unfold at_rc, ncols, overlay. simpl. rewrite Hsb, Hs. simpl.
  apply where_nonzero_nth.
  - rewrite (well_formed_2d pm_arr nrows n Hs Hwf).
    rewrite (well_formed_2d board nrows n); [reflexivity | congruence | assumption].
  - rewrite (well_formed_2d pm_arr nrows n Hs Hwf). now apply flat_index_bound.
Qed.

(** X5: a move that passes the obstacle check leaves every obstacle of the
    board in place. *)
Theorem obstacles_kept (pm_arr board : ndarray) (nrows n r c : nat) :
  shape pm_arr = [nrows; n] → shape board = shape pm_arr →
  well_formed pm_arr → well_formed board →
  touches_obstacle board (argwhere_nonzero pm_arr) = false →
  (r < nrows)%nat → (c < n)%nat →
  at_rc board r c = 3%Z → at_rc (overlay pm_arr board) r c = 3%Z.
Proof.
  intros Hs Hsb Hwf Hwfb Ht Hr Hc H3.
  rewrite (overlay_at_rc pm_arr board nrows n r c) by assumption.
  destruct (Z.eqb_spec (at_rc pm_arr r c) 0) as [_|Hnz]; [exact H3|].
  exfalso. apply not_true_iff_false in Ht. apply Ht.
  unfold touches_obstacle. apply existsb_exists. exists (r, c). split.
  - eapply argwhere_nonzero_in; eassumption.
  - simpl. now apply Z.eqb_eq.
Qed.

Lemma obstacles_kept_witness :
  at_rc (overlay (np_array [[0; 0; 0]; [1; 0; 0]; [0; 0; 0]]%Z)
           {| shape := [3; 3]%nat; data := [0; 2; 0; 0; 0; 3; 0; 0; 0]%Z |}) 1 2 = 3%Z.
Proof.
  apply (obstacles_kept _ _ 3 3 1 2); try reflexivity; lia.
Defined.

Lemma where_nonzero_twice (p : list Z) :
  ∀ b, where_nonzero p (where_nonzero p b) = where_nonzero p b.
Proof.
  induction p as [|x p IH]; intros b; [reflexivity|].
  destruct b as [|y b]; [reflexivity|]. simpl. rewrite IH.
  now destruct (x =? 0)%Z.
Qed.

(** X6: overlaying a move on a board it has already been overlaid on changes
    nothing. *)
Theorem overlay_twice (pm_arr board : ndarray) :
  overlay pm_arr (overlay pm_arr board) = overlay pm_arr board.
Proof. unfold overlay. simpl. now rewrite where_nonzero_twice. Qed.

Lemma where_nonzero_zeros (p : list Z) :
  ∀ b, List.length p = List.length b → List.Forall (fun x => x = 0%Z) p →
    where_nonzero p b = b.
Proof.
  induction p as [|x p IH]; intros b Hl Hz; destruct b as [|y b]; try discriminate;
    [reflexivity|].
  inversion Hz as [|? ? -> Hz']; subst. simpl. rewrite IH; [reflexivity | | assumption].
  simpl in Hl. lia.
Qed.

(** X7: a move with no non-zero cell gives the board back. *)
Theorem overlay_zero_move (pm_arr board : ndarray) :
  shape pm_arr = shape board → List.length (data pm_arr) = List.length (data board) →
  List.Forall (fun x => x = 0%Z) (data pm_arr) →
  overlay pm_arr board = board.
Proof.
  intros Hs Hl Hz. unfold overlay. rewrite Hs, (where_nonzero_zeros _ _ Hl Hz).
  now destruct board.
Qed.

Lemma overlay_zero_move_witness :
  overlay (np_array [[0; 0]; [0; 0]]%Z) {| shape := [2; 2]%nat; data := [1; 3; 0; 2]%Z |}
  = {| shape := [2; 2]%nat; data := [1; 3; 0; 2]%Z |}.
Proof.
  apply overlay_zero_move; [reflexivity | reflexivity |].
  repeat constructor.
Defined.

(** ** The runs of variant B, continued *)

Lemma files_writerow_append (path : string) (r : list field) (w : world)
    (rows : list (list field)) :
  files w !! path = Some (Table rows) →
  files (writerow path r w) !! path = Some (Table (rows ++ [r])).
Proof. intros H. unfold writerow. rewrite H. simpl. apply lookup_insert_eq. Qed.

Section RunFacts.

Variable possible_moves : list (list (list Z)).
Variable format_template : string → string → result string.
Variable shlex_split : string → result (list string).
Variable simulator : list string → gmap string content → proc.

Local Abbreviation run_sim := (VariantB.run_simulator format_template shlex_split simulator).
Local Abbreviation pair := (VariantB.process_pair format_template shlex_split simulator).
Local Abbreviation moves := (VariantB.for_moves format_template shlex_split simulator).
Local Abbreviation boards := (VariantB.for_files possible_moves format_template shlex_split simulator).
Local Abbreviation main := (VariantB.main possible_moves format_template shlex_split simulator).

Lemma run_simulator_B_world (template path : string) (t : Z) (w : world) :
  files (snd (run_sim template path t w)) = files w
  ∧ console (snd (run_sim template path t w)) = console w.
Proof.
  unfold VariantB.run_simulator. destruct (build_cmd _ _ _ _); [|auto].
  destruct (captured_output _); auto.
Qed.

(** What a pair adds to the results table: nothing when it is skipped or
    crashes, one row of seven fields when it goes through. *)
Lemma process_pair_rows (a : args_B) (rp : string) (src : src_csv) (mi : nat)
    (pm : list (list Z)) (w : world) (t : list (list field)) :
  files w !! rp = Some (Table t) →
  ∃ rows, files (snd (pair a rp src mi pm w)) !! rp = Some (Table (t ++ rows))
    ∧ List.Forall (fun r => List.length r = 7%nat) rows
    ∧ (fst (pair a rp src mi pm w) = Done →
       List.length rows = if applicable src pm then 1%nat else 0%nat).
Proof.
  intros Ht. unfold VariantB.process_pair, applicable.
  destruct (bool_decide _); cbn [negb andb].
  2: { exists []. rewrite app_nil_r. auto. }
  destruct (touches_obstacle _ _); cbn [negb].
  { exists []. rewrite app_nil_r. auto. }
  set (out_path := path_join (output_dir a) (out_name (stem src) mi)).
  set (w1 := match files w !! out_path with Some _ => _ | None => _ end).
  assert (H1 : files w1 !! rp = Some (Table t)).
  { subst w1. destruct (files w !! out_path) eqn:Eo; [exact Ht|]. simpl.
    rewrite lookup_insert_ne; [exact Ht|]. intros ->. congruence. }
  destruct (run_simulator_B_world (sim_cmd a) out_path (timeout a) w1) as [Hf _].
  destruct (run_sim (sim_cmd a) out_path (timeout a) w1) as [[sim_out|e] w2]; simpl in Hf.
  - destruct (parse_winrate sim_out 1) as [win|e]; simpl.
    + rewrite <- Hf in H1.
      destruct (argwhere_nonzero (np_array pm)) as [|[r c] nz]; simpl;
        eexists [_]; (split; [now apply files_writerow_append|]);
        split; auto.
    + exists []. rewrite app_nil_r, Hf. split; [assumption|]. split; [constructor | discriminate].
  - simpl. exists []. rewrite app_nil_r, Hf. split; [assumption|].
    split; [constructor | discriminate].
Qed.

Lemma for_moves_rows (a : args_B) (rp : string) (src : src_csv) (pms : list (list (list Z))) :
  ∀ mi w t, files w !! rp = Some (Table t) →
    ∃ rows, files (snd (moves a rp src mi pms w)) !! rp = Some (Table (t ++ rows))
      ∧ List.Forall (fun r => List.length r = 7%nat) rows
      ∧ (fst (moves a rp src mi pms w) = Done →
         List.length rows = List.length (List.filter (applicable src) pms)).
Proof.
  induction pms as [|pm pms IH]; intros mi w t Ht; simpl.
  { exists []. rewrite app_nil_r. auto. }
  destruct (process_pair_rows a rp src mi pm w t Ht) as (r1 & H1 & F1 & L1).
  destruct (pair a rp src mi pm w) as [[|e] w']; simpl in *.
  - destruct (IH (S mi) w' _ H1) as (r2 & H2 & F2 & L2).
    exists (r1 ++ r2)%list. rewrite app_assoc. split; [exact H2|].
    split; [now apply Forall_app|]. intros Hd.
    rewrite length_app, (L1 eq_refl), (L2 Hd).
    destruct (applicable src pm); reflexivity.
  - exists r1. split; [exact H1|]. split; [exact F1 | discriminate].
Qed.

Lemma for_files_rows (a : args_B) (rp : string) (csv_files : list src_csv) :
  ∀ w t, files w !! rp = Some (Table t) →
    ∃ rows, files (snd (boards a rp csv_files w)) !! rp = Some (Table (t ++ rows))
      ∧ List.Forall (fun r => List.length r = 7%nat) rows
      ∧ (fst (boards a rp csv_files w) = Done →
         List.length rows = applicable_pairs possible_moves csv_files).
Proof.
  induction csv_files as [|src rest IH]; intros w t Ht; simpl.
  { exists []. rewrite app_nil_r. auto. }
  destruct (for_moves_rows a rp src possible_moves 0%nat w t Ht) as (r1 & H1 & F1 & L1).
  destruct (moves a rp src 0%nat possible_moves w) as [[|e] w']; simpl in *.
  - destruct (IH w' _ H1) as (r2 & H2 & F2 & L2).
    exists (r1 ++ r2)%list. rewrite app_assoc. split; [exact H2|].
    split; [now apply Forall_app|]. intros Hd.
    rewrite length_app, (L1 eq_refl), (L2 Hd). reflexivity.
  - exists r1. split; [exact H1|]. split; [exact F1 | discriminate].
Qed.

(** X8: after a run that found boards, however it ended, the results file
    holds the header followed by rows of seven fields each; when the run
    reached its end there is one row for each pair that went through. *)
Theorem results_table_rows (a : args_B) (src : src_csv) (rest : list src_csv) (w : world) :
  ∃ rows,
    files (snd (main a (src :: rest) w)) !! results_path_of (output_dir a) (results_file a)
    = Some (Table (header_B :: rows))
    ∧ List.Forall (fun r => List.length r = List.length header_B) rows
    ∧ (fst (main a (src :: rest) w) = Done →
       List.length rows = applicable_pairs possible_moves (src :: rest)).
Proof.
  unfold VariantB.main.
  set (rp := results_path_of (output_dir a) (results_file a)).
  apply (for_files_rows a rp (src :: rest) _ [header_B]).
  unfold writerow. simpl. rewrite lookup_insert_eq. simpl. apply lookup_insert_eq.
Qed.

(** X9: the results file is rewritten from scratch: what it held before the
    run has no effect on the run. *)
Theorem results_rewritten (a : args_B) (src : src_csv) (rest : list src_csv) (w : world)
    (previous : content) :
  main a (src :: rest) (write_file (results_path_of (output_dir a) (results_file a)) previous w)
  = main a (src :: rest) w.
Proof.
  unfold VariantB.main.
  set (rp := results_path_of (output_dir a) (results_file a)).
  replace (write_file rp (Table []) (write_file rp previous w))
    with (write_file rp (Table []) w); [reflexivity|].
  unfold write_file. simpl. now rewrite insert_insert_eq.
Qed.

Lemma run_simulator_B_logged (template path : string) (t : Z) (w : world) (cmd : list string) :
  build_cmd format_template shlex_split template path = Returned cmd →
  ∃ out, run_sim template path t w = (Returned out, log_invocation cmd (Some t) w).
Proof.
  intros Hb. unfold VariantB.run_simulator. rewrite Hb.
  destruct (simulator cmd (files w)) as [secs out| |e]; simpl; eauto.
  destruct (t <? secs)%Z; simpl; eauto.
Qed.

Lemma invocations_writerow (path : string) (r : list field) (w : world) :
  invocations (writerow path r w) = invocations w.
Proof. unfold writerow. destruct (files w !! path) as [[rows|g|s]|]; reflexivity. Qed.


(** X11: the command is built outside the [try]: when the template cannot be
    formatted or split, the exception leaves the run at the first pair
    that goes through, after its artifact has been materialised and
    before any invocation or row; the moves that follow are not
    processed. The artifact is there when the run is left: written with
    the move laid over the board when it was missing, and announced as
    reused, with no file touched, when it was there. *)
Theorem unbuildable_command_aborts (a : args_B) (rp : string) (src : src_csv) (mi : nat)
    (pm : list (list Z)) (rest : list (list (list Z))) (w : world) (e : string) :
  applicable src pm = true →
  build_cmd format_template shlex_split (sim_cmd a)
    (path_join (output_dir a) (out_name (stem src) mi)) = Raised e →
  ∃ w1,
    pair a rp src mi pm w = (Crashed e, w1)
    ∧ moves a rp src mi (pm :: rest) w = (Crashed e, w1)
    ∧ invocations w1 = invocations w
    ∧ (∀ t, files w !! rp = Some (Table t) → files w1 !! rp = Some (Table t))
    ∧ (files w !! path_join (output_dir a) (out_name (stem src) mi) = None →
       files w1 = <[path_join (output_dir a) (out_name (stem src) mi)
                    := Grid (overlay (np_array pm) (board src))]> (files w)
       ∧ files w1 !! path_join (output_dir a) (out_name (stem src) mi)
         = Some (Grid (overlay (np_array pm) (board src)))
       ∧ console w1 = console w)
    ∧ (∀ c, files w !! path_join (output_dir a) (out_name (stem src) mi) = Some c →
       files w1 = files w
       ∧ console w1
         = (console w ++ ["reusing existing modified csv: " +:+ out_name (stem src) mi])%list).
Proof.
  intros Ha Hb. unfold applicable in Ha.
  apply andb_true_iff in Ha as [Hs Ht]. apply negb_true_iff in Ht.
  set (out_path := path_join (output_dir a) (out_name (stem src) mi)) in *.
  set (w1 := match files w !! out_path with
             | Some _ => print ("reusing existing modified csv: " +:+ out_name (stem src) mi) w
             | None => write_file out_path (Grid (overlay (np_array pm) (board src))) w
             end).
  assert (Hp : pair a rp src mi pm w = (Crashed e, w1)).
  { unfold VariantB.process_pair, VariantB.run_simulator. rewrite Hs, Ht. cbn [negb].
    cbv zeta. fold out_path. rewrite Hb. reflexivity. }
  exists w1. split; [exact Hp|]. split; [simpl; now rewrite Hp|].
  subst w1. destruct (files w !! out_path) eqn:Eo; simpl.
  - split; [reflexivity|]. split; [auto|]. split; [discriminate|]. auto.
  - split; [reflexivity|]. split.
    + intros t Hrp. rewrite lookup_insert_ne; [exact Hrp|]. intros ->. congruence.
    + split; [|discriminate]. intros _. split; [reflexivity|].
      split; [apply lookup_insert_eq | reflexivity].
Qed.

Lemma nonzero_from_nil (l : list Z) :
  ∀ k0, nonzero_from k0 l = [] → ∀ j, List.nth j l 0%Z = 0%Z.
Proof.
  induction l as [|x l IH]; intros k0 H j; simpl in *; [now destruct j|].
  destruct (Z.eqb_spec x 0) as [->|_]; [|discriminate].
  destruct j as [|j]; [reflexivity | eapply IH; eassumption].
Qed.

Lemma nonzero_from_head (l : list Z) :
  ∀ k0 k ks, nonzero_from k0 l = k :: ks →
    (k0 <= k < k0 + List.length l)%nat ∧ List.nth (k - k0) l 0%Z ≠ 0%Z
    ∧ ∀ j, (k0 <= j < k)%nat → List.nth (j - k0) l 0%Z = 0%Z.
Proof.
  induction l as [|x l IH]; intros k0 k ks H; simpl in *; [discriminate|].
  destruct (Z.eqb_spec x 0) as [->|Hx].
  - destruct (IH _ _ _ H) as (Hk & Hn & Hz). split; [lia|]. split.
    + replace (k - k0)%nat with (S (k - S k0)) by lia. exact Hn.
    + intros j Hj. destruct (j - k0)%nat as [|i] eqn:Ej; [reflexivity|].
      replace i with (j - S k0)%nat by lia. apply Hz. lia.
  - injection H as <- _. split; [lia|]. split; [now rewrite Nat.sub_diag | lia].
Qed.

(** X12: the destination written in the row of a pair is the first non-zero
    cell of the move in row-major order, and (-1, -1) for a move without
    a non-zero cell. *)
Theorem destination_reported (a : args_B) (rp : string) (src : src_csv) (mi : nat)
    (pm : list (list Z)) (w : world) (cmd : list string) (nrows n : nat) :
  applicable src pm = true →
  build_cmd format_template shlex_split (sim_cmd a)
    (path_join (output_dir a) (out_name (stem src) mi)) = Returned cmd →
  shape (np_array pm) = [nrows; n] → well_formed (np_array pm) →
  ∃ dr dc win_f w',
    pair a rp src mi pm w
    = (Done, writerow rp [FStr (name src); FInt (Z.of_nat mi); FInt dr; FInt dc; win_f;
                          FStr ""; FStr (path_join (output_dir a) (out_name (stem src) mi))] w')
    ∧ ((dr = (-1)%Z ∧ dc = (-1)%Z
        ∧ ∀ r c, (r < nrows)%nat → (c < n)%nat → at_rc (np_array pm) r c = 0%Z)
       ∨ ∃ r c, dr = Z.of_nat r ∧ dc = Z.of_nat c ∧ (r < nrows)%nat ∧ (c < n)%nat
           ∧ at_rc (np_array pm) r c ≠ 0%Z
           ∧ ∀ r' c', (r' < nrows)%nat → (c' < n)%nat →
               (r' * n + c' < r * n + c)%nat → at_rc (np_array pm) r' c' = 0%Z).
Proof.
  intros Ha Hb Hshape Hwf. unfold applicable in Ha.
  apply andb_true_iff in Ha as [Hs Ht]. apply negb_true_iff in Ht.
  unfold VariantB.process_pair. rewrite Hs, Ht. cbn [negb]. cbv zeta.
  set (out_path := path_join (output_dir a) (out_name (stem src) mi)) in *.
  set (w1 := match files w !! out_path with Some _ => _ | None => _ end).
  destruct (run_simulator_B_logged (sim_cmd a) out_path (timeout a) w1 cmd Hb) as [out ->].
  destruct (parse_winrate_returns out 1) as [win ->].
  pose proof (well_formed_2d _ _ _ Hshape Hwf) as Hlen.
  unfold argwhere_nonzero, at_rc, ncols. rewrite Hshape. cbn [List.nth].
  destruct (nonzero_from 0 (data (np_array pm))) as [|k ks] eqn:Enz; cbn [List.map].
  - do 4 eexists. split; [reflexivity|]. left. repeat split.
    intros r c _ _. eapply nonzero_from_nil; eassumption.
  - destruct (nonzero_from_head _ _ _ _ Enz) as (Hk & Hnz & Hz).
    rewrite Nat.sub_0_r in Hnz. rewrite Hlen in Hk.
    assert (Hn0 : n ≠ 0%nat) by (intros ->; lia).
    pose proof (Nat.div_mod_eq k n) as Hdm.
    pose proof (Nat.mod_upper_bound k n Hn0) as Hmod.
    do 4 eexists. split; [reflexivity|]. right.
    exists (k / n)%nat, (k mod n)%nat. repeat split; try assumption.
    + apply Nat.Div0.div_lt_upper_bound. lia.
    + replace (k / n * n + k mod n)%nat with k by lia. exact Hnz.
    + intros r' c' _ _ Hlt. specialize (Hz (r' * n + c')%nat).
      rewrite Nat.sub_0_r in Hz. apply Hz. lia.
Qed.

End RunFacts.


Lemma unbuildable_command_aborts_witness :
  ∃ w1,
    VariantB.for_moves format_other_field split_spaces (sim_reports 2 "")
      args_demo "out/move_evals.csv" empty_board 0 one_move empty_world
    = (Crashed "KeyError", w1)
    ∧ files w1 !! "out/b_move0.csv"
      = Some (Grid {| shape := [3; 3]%nat; data := [0; 0; 0; 1; 0; 0; 0; 0; 0]%Z |})
    ∧ invocations w1 = [].
Proof.
  destruct (unbuildable_command_aborts format_other_field split_spaces (sim_reports 2 "")
              args_demo "out/move_evals.csv" empty_board 0
              [[0; 0; 0]; [1; 0; 0]; [0; 0; 0]]%Z [] empty_world "KeyError")
    as (w1 & _ & H & Hi & _ & Hnew & _); [reflexivity | reflexivity |].
  exists w1. split; [exact H|]. split; [|exact Hi].
  destruct (Hnew eq_refl) as (_ & Hf & _). exact Hf.
Defined.

Lemma destination_reported_witness :
  ∃ dr dc win_f w',
    VariantB.process_pair (format_field "input") split_spaces (sim_reports 2 "")
      args_demo "out/move_evals.csv" empty_board 0
      [[0; 0; 0]; [1; 0; 0]; [0; 0; 0]]%Z empty_world
    = (Done, writerow "out/move_evals.csv"
               [FStr "b.csv"; FInt 0; FInt dr; FInt dc; win_f; FStr "";
                FStr "out/b_move0.csv"] w').
Proof.
  destruct (destination_reported (format_field "input") split_spaces (sim_reports 2 "")
              args_demo "out/move_evals.csv" empty_board 0
              [[0; 0; 0]; [1; 0; 0]; [0; 0; 0]]%Z empty_world
              ["python"; "simulator.py"; "--board"; "out/b_move0.csv"] 3 3)
    as (dr & dc & win_f & w' & H & _); try reflexivity.
  exists dr, dc, win_f, w'. exact H.
Defined.

(** ** The run of variant A *)

Section RunFactsA.

Variable format_template : string → string → result string.
Variable shlex_split : string → result (list string).
Variable simulator : list string → gmap string content → proc.
Variable possible_moves : list (list (list Z)).
Variable str_of_float : float → string.

Local Abbreviation run_sim := (VariantA.run_simulator format_template shlex_split simulator).
Local Abbreviation moves_loop :=
  (VariantA.for_moves format_template shlex_split simulator str_of_float).
Local Abbreviation main :=
  (VariantA.main format_template shlex_split simulator possible_moves str_of_float).

Lemma run_simulator_A_files (template : string) (mi : nat) (t : Z) (w : world) (p : string) :
  p ≠ "agents/move.txt" →
  files (snd (run_sim template mi t w)) !! p = files w !! p.
Proof.
  intros Hp. unfold VariantA.run_simulator. destruct (build_cmd _ _ _ _); [|reflexivity].
  destruct (captured_output _); simpl; now rewrite lookup_insert_ne.
Qed.

Lemma run_simulator_A_returned (template : string) (mi : nat) (t : Z) (w w' : world)
    (out : string) :
  run_sim template mi t w = (Some (Returned out), w') →
  files w' !! "agents/move.txt" = Some (Text (str_of_nat mi)).
Proof.
  unfold VariantA.run_simulator. destruct (build_cmd _ _ _ _); [|discriminate].
  destruct (captured_output _); [|discriminate].
  intros [= _ <-]. simpl. apply lookup_insert_eq.
Qed.

(** The loop writes no file but the side channel; when it reaches its end
    the catalog had no more moves than the table [moves] has entries, one
    win rate was collected for each move, and the side channel holds the
    index of the last move. *)
Lemma for_moves_A_facts (a : VariantA.args) (pms : list (list (list Z))) :
  ∀ mi wins w,
    (∀ p, p ≠ "agents/move.txt" →
          files (snd (moves_loop a mi pms wins w)) !! p = files w !! p)
    ∧ (fst (fst (moves_loop a mi pms wins w)) = VariantA.Ended →
       (mi + List.length pms <= 8 ∨ pms = [])%nat
       ∧ List.length (snd (fst (moves_loop a mi pms wins w)))
         = (List.length wins + List.length pms)%nat
       ∧ (pms ≠ [] →
          files (snd (moves_loop a mi pms wins w)) !! "agents/move.txt"
          = Some (Text (str_of_nat (mi + List.length pms - 1))))).
Proof.
  induction pms as [|pm pms IH]; intros mi wins w; simpl.
  { split; [reflexivity|]. intros _. split; [now right|]. split; [lia | congruence]. }
  pose proof (run_simulator_A_files (VariantA.sim_cmd a) mi (VariantA.timeout a) w) as Hf.
  pose proof (run_simulator_A_returned (VariantA.sim_cmd a) mi (VariantA.timeout a) w) as Hr.
  destruct (run_sim (VariantA.sim_cmd a) mi (VariantA.timeout a) w) as [[[out|e]|] w1];
    simpl in *; try (split; [exact Hf | discriminate]).
  destruct (parse_winrate out 1) as [win|e]; simpl; [|split; [exact Hf | discriminate]].
  destruct (nth_error VariantA.moves mi) as [[dr dc]|] eqn:En; simpl;
    [|split; [exact Hf | discriminate]].
  set (w2 := print _ w1).
  destruct (IH (S mi) (wins ++ [win])%list w2) as [IHf IHe]. split.
  - intros p Hp. rewrite (IHf p Hp). subst w2. simpl. now apply Hf.
  - intros He. destruct (IHe He) as (Hlen & Hw & Hm).
    assert (Hmi : (mi < 8)%nat).
    { change 8%nat with (List.length VariantA.moves).
      apply (proj1 (nth_error_Some VariantA.moves mi)). congruence. }
    split; [left; destruct Hlen as [Hlen| ->]; simpl; lia|]. split.
    + rewrite Hw, length_app. simpl. lia.
    + intros _. destruct pms as [|pm' pms'].
      * simpl in *. replace (mi + 1 - 1)%nat with mi by lia.
        rewrite (Hr w1 out eq_refl). reflexivity.
      * rewrite Hm by discriminate. f_equal. f_equal. f_equal. simpl. lia.
Qed.

(** X13: a run that reaches its end appends one row to the results table, with
    one field for each move of the catalog; a table found there keeps its
    rows, and a new table starts with the header row. The side channel
    then holds the index of the last move. *)
Theorem winrates_row_appended (a : VariantA.args) (w : world) (before : list (list field)) :
  let rp := results_path_of (VariantA.output_dir a) (VariantA.results_file a) in
  rp ≠ "agents/move.txt" →
  (files w !! rp = None
   ∧ before = [List.map (fun m => FStr (VariantA.str_of_pair m)) VariantA.moves])
  ∨ files w !! rp = Some (Table before) →
  fst (main a w) = VariantA.Ended →
  (∃ wins, List.length wins = List.length possible_moves
     ∧ files (snd (main a w)) !! rp
       = Some (Table (before ++ [List.map VariantA.field_of_win wins])))
  ∧ (possible_moves ≠ [] →
     files (snd (main a w)) !! "agents/move.txt"
     = Some (Text (str_of_nat (List.length possible_moves - 1)))).
Proof.
  intros rp Hrp Hbefore. unfold VariantA.main. fold rp.
  set (w1 := if match files w !! rp with Some _ => true | None => false end then _ else _).
  assert (H1 : files w1 !! rp = Some (Table before)).
  { subst w1. unfold VariantA.open_append.
    destruct Hbefore as [[Hn ->]| Hs].
    - rewrite Hn. unfold writerow, write_file. simpl. rewrite lookup_insert_eq. simpl.
      apply lookup_insert_eq.
    - rewrite Hs. exact Hs. }
  destruct (for_moves_A_facts a possible_moves 0%nat [] w1) as [Hf He].
  destruct (moves_loop a 0%nat possible_moves [] w1) as [[o wins] w2]; simpl in *.
  destruct o; simpl; try discriminate. intros _.
  destruct (He eq_refl) as (_ & Hlen & Hm). split.
  - exists wins. split; [exact Hlen|].
    apply files_writerow_append. rewrite (Hf rp Hrp). exact H1.
  - intros Hne. rewrite files_writerow_other by (intros E; apply Hrp; now symmetry).
    now apply Hm.
Qed.


End RunFactsA.

Lemma winrates_row_appended_witness :
  ∃ wins,
    List.length wins = 1%nat
    ∧ files (snd (VariantA.main (format_field "move") split_spaces
                    (sim_reports 2 "Player 1 win percentage: 60%") one_move float_text
                    args_demo_A empty_world)) !! "results/move_evals.csv"
      = Some (Table ([List.map (fun m => FStr (VariantA.str_of_pair m)) VariantA.moves]
                     ++ [List.map VariantA.field_of_win wins])).
Proof.
  apply (winrates_row_appended (format_field "move") split_spaces
           (sim_reports 2 "Player 1 win percentage: 60%") one_move float_text
           args_demo_A empty_world).
  - discriminate.
  - left. split; reflexivity.
  - vm_compute. reflexivity.
Defined.


(** ** The names of the artifacts *)

Lemma app_inv_split (a : string) :
  ∀ b c d, a +:+ b = c +:+ d →
    (∃ x, a = c +:+ x ∧ d = x +:+ b) ∨ (∃ x, c = a +:+ x ∧ b = x +:+ d).
Proof.
  induction a as [|x a IH]; intros b c d H; simpl in H.
  - right. exists c. auto.
  - destruct c as [|y c]; simpl in H.
    + left. exists (String x a). auto.
    + injection H as -> H. destruct (IH _ _ _ H) as [(z & -> & ->)|(z & -> & ->)].
      * left. exists z. auto.
      * right. exists z. auto.
Qed.

Lemma app_same_tail_nil (x t : string) : t = x +:+ t → x = "".
Proof.
  intros H. apply (f_equal String.length) in H. rewrite length_app_s in H.
  destruct x; [reflexivity | simpl in H; lia].
Qed.

Lemma app_inv_tail_s (a b t : string) : a +:+ t = b +:+ t → a = b.
Proof.
  intros H. destruct (app_inv_split _ _ _ _ H) as [(x & -> & Hx)|(x & -> & Hx)];
    apply app_same_tail_nil in Hx as ->; now rewrite app_nil_r_s.
Qed.

Lemma last_char_all (P : ascii → bool) (x : string) :
  ∀ prev, x ≠ "" → all_chars P x = true → ∃ c, last_char prev x = Some c ∧ P c = true.
Proof.
  induction x as [|c x IH]; intros prev Hne Hx; [contradiction|].
  simpl in *. apply andb_true_iff in Hx as [Hc Hx].
  destruct x as [|d x]; [exists c; auto|]. apply IH; [discriminate | exact Hx].
Qed.

Lemma string_of_uint_all_digits (d : Decimal.uint) :
  all_chars Chr.is_digit (NilEmpty.string_of_uint d) = true.
Proof. induction d; simpl; try reflexivity; exact IHd. Qed.

Lemma str_of_nat_digits (n : nat) : all_chars Chr.is_digit (str_of_nat n) = true.
Proof.
  unfold str_of_nat, str_of_int, NilZero.string_of_int, NilZero.string_of_uint.
  destruct (Z.of_nat n) as [|p|p] eqn:E; simpl; [reflexivity | | lia].
  destruct (Pos.to_uint p); try reflexivity; simpl; apply string_of_uint_all_digits.
Qed.

Lemma str_of_int_inj (m n : Z) : str_of_int m = str_of_int n → m = n.
Proof.
  unfold str_of_int. intros H. apply DecimalZ.to_int_inj.
  assert (Hnn : ∀ z, Z.to_int z ≠ Decimal.Pos Decimal.Nil ∧ Z.to_int z ≠ Decimal.Neg Decimal.Nil).
  { intros [|p|p]; simpl; split; try discriminate; intros [= E];
      now apply (DecimalPos.Unsigned.to_uint_nonnil p). }
  apply (f_equal NilZero.int_of_string) in H.
  rewrite !NilZero.isi in H by apply Hnn. now injection H.
Qed.

(** X15: two pairs get the same artifact name only when they have the same
    board stem and the same move index. *)
Theorem out_name_injective (stem1 stem2 : string) (mi1 mi2 : nat) :
  out_name stem1 mi1 = out_name stem2 mi2 → stem1 = stem2 ∧ mi1 = mi2.
Proof.
  unfold out_name. intros H.
  rewrite <- !(app_assoc_s _ "_move"), <- !(app_assoc_s _ (str_of_nat _)) in H.
  apply app_inv_tail_s in H.
  assert (Hd : ∀ s1 s2 n1 n2 x,
             s1 +:+ "_move" = (s2 +:+ "_move") +:+ x → str_of_nat n2 = x +:+ str_of_nat n1 →
             x = "").
  { intros s1 s2 n1 n2 x E1 E2. destruct x as [|c x]; [reflexivity|]. exfalso.
    pose proof (str_of_nat_digits n2) as Hdig. rewrite E2, all_chars_app in Hdig.
    apply andb_true_iff in Hdig as [Hx _].
    destruct (last_char_all Chr.is_digit (String c x) (last_char None (s2 +:+ "_move"))
                ltac:(discriminate) Hx) as (l & Hl & Hdl).
    apply (f_equal (last_char None)) in E1.
    rewrite (last_char_app None s1), (last_char_app None (s2 +:+ "_move")), Hl in E1.
    simpl in E1. injection E1 as <-. vm_compute in Hdl. discriminate. }
  assert (Hfin : ∀ s1 s2 n1 n2,
             s1 +:+ "_move" = s2 +:+ "_move" → str_of_nat n2 = str_of_nat n1 →
             s1 = s2 ∧ n1 = n2).
  { intros s1 s2 n1 n2 E1 E2. split; [now apply app_inv_tail_s in E1|].
    apply str_of_int_inj in E2. lia. }
  destruct (app_inv_split _ _ _ _ H) as [(x & E1 & E2)|(x & E1 & E2)].
  - pose proof (Hd _ _ _ _ _ E1 E2) as ->. rewrite app_nil_r_s in E1. simpl in E2.
    now apply Hfin.
  - pose proof (Hd _ _ _ _ _ E1 E2) as ->. rewrite app_nil_r_s in E1. simpl in E2.
    destruct (Hfin _ _ _ _ E1 E2). auto.
Qed.

Lemma out_name_injective_witness :
  "b" = "b" ∧ 3%nat = 3%nat.
Proof. apply (out_name_injective "b" "b" 3 3). reflexivity. Defined.

(** ** The invocations of a run of variant B *)

Section InvocationFacts.

Variable possible_moves : list (list (list Z)).
Variable format_template : string → string → result string.
Variable shlex_split : string → result (list string).
Variable simulator : list string → gmap string content → proc.

Local Abbreviation pair := (VariantB.process_pair format_template shlex_split simulator).
Local Abbreviation moves := (VariantB.for_moves format_template shlex_split simulator).
Local Abbreviation boards := (VariantB.for_files possible_moves format_template shlex_split simulator).
Local Abbreviation main := (VariantB.main possible_moves format_template shlex_split simulator).

Lemma process_pair_calls (a : args_B) (rp : string) (src : src_csv) (mi : nat)
    (pm : list (list Z)) (w : world) :
  ∃ calls,
    invocations (snd (pair a rp src mi pm w)) = (invocations w ++ calls)%list
    ∧ List.Forall (fun c => snd c = Some (timeout a)) calls
    ∧ (fst (pair a rp src mi pm w) = Done →
       List.length calls = if applicable src pm then 1%nat else 0%nat).
Proof.
  unfold VariantB.process_pair, applicable.
  destruct (bool_decide _); cbn [negb andb].
  2: { exists []. rewrite app_nil_r. auto. }
  destruct (touches_obstacle _ _); cbn [negb].
  { exists []. rewrite app_nil_r. auto. }
  cbv zeta. set (out_path := path_join (output_dir a) (out_name (stem src) mi)).
  set (w1 := match files w !! out_path with Some _ => _ | None => _ end).
  assert (Hi : invocations w1 = invocations w).
  { subst w1. now destruct (files w !! out_path). }
  destruct (build_cmd format_template shlex_split (sim_cmd a) out_path) as [cmd|e] eqn:Hb.
  - destruct (run_simulator_B_logged format_template shlex_split simulator
                (sim_cmd a) out_path (timeout a) w1 cmd Hb) as [out ->].
    destruct (parse_winrate_returns out 1) as [win ->].
    exists [(cmd, Some (timeout a))].
    destruct (argwhere_nonzero (np_array pm)) as [|[r c] nz]; simpl;
      rewrite invocations_writerow; simpl; rewrite Hi; repeat split; auto.
  - unfold VariantB.run_simulator. rewrite Hb. simpl. exists [].
    rewrite app_nil_r. split; [exact Hi|]. split; [constructor | discriminate].
Qed.

Lemma for_moves_calls (a : args_B) (rp : string) (src : src_csv) (pms : list (list (list Z))) :
  ∀ mi w, ∃ calls,
    invocations (snd (moves a rp src mi pms w)) = (invocations w ++ calls)%list
    ∧ List.Forall (fun c => snd c = Some (timeout a)) calls
    ∧ (fst (moves a rp src mi pms w) = Done →
       List.length calls = List.length (List.filter (applicable src) pms)).
Proof.
  induction pms as [|pm pms IH]; intros mi w; simpl.
  { exists []. rewrite app_nil_r. auto. }
  destruct (process_pair_calls a rp src mi pm w) as (c1 & H1 & F1 & L1).
  destruct (pair a rp src mi pm w) as [[|e] w']; simpl in *.
  - destruct (IH (S mi) w') as (c2 & H2 & F2 & L2).
    exists (c1 ++ c2)%list. rewrite H2, H1, app_assoc. split; [reflexivity|].
    split; [now apply Forall_app|]. intros Hd.
    rewrite length_app, (L1 eq_refl), (L2 Hd). destruct (applicable src pm); reflexivity.
  - exists c1. split; [exact H1|]. split; [exact F1 | discriminate].
Qed.

Lemma for_files_calls (a : args_B) (rp : string) (csv_files : list src_csv) :
  ∀ w, ∃ calls,
    invocations (snd (boards a rp csv_files w)) = (invocations w ++ calls)%list
    ∧ List.Forall (fun c => snd c = Some (timeout a)) calls
    ∧ (fst (boards a rp csv_files w) = Done →
       List.length calls = applicable_pairs possible_moves csv_files).
Proof.
  induction csv_files as [|src rest IH]; intros w; simpl.
  { exists []. rewrite app_nil_r. auto. }
  destruct (for_moves_calls a rp src possible_moves 0%nat w) as (c1 & H1 & F1 & L1).
  destruct (moves a rp src 0%nat possible_moves w) as [[|e] w']; simpl in *.
  - destruct (IH w') as (c2 & H2 & F2 & L2).
    exists (c1 ++ c2)%list. rewrite H2, H1, app_assoc. split; [reflexivity|].
    split; [now apply Forall_app|]. intros Hd.
    rewrite length_app, (L1 eq_refl), (L2 Hd). reflexivity.
  - exists c1. split; [exact H1|]. split; [exact F1 | discriminate].
Qed.

(** X16: every invocation of a run carries the timeout of the arguments, and a
    run that reaches its end has invoked the simulator once for each pair
    that went through: never for a skipped pair, never twice. *)
Theorem one_invocation_per_pair (a : args_B) (csv_files : list src_csv) (w : world) :
  ∃ calls,
    invocations (snd (main a csv_files w)) = (invocations w ++ calls)%list
    ∧ List.Forall (fun c => snd c = Some (timeout a)) calls
    ∧ (fst (main a csv_files w) = Done →
       List.length calls = applicable_pairs possible_moves csv_files).
Proof.
  unfold VariantB.main. destruct csv_files as [|src rest].
  - exists []. simpl. rewrite app_nil_r. auto.
  - set (rp := results_path_of (output_dir a) (results_file a)).
    destruct (for_files_calls a rp (src :: rest)
                (writerow rp header_B (write_file rp (Table []) w))) as (calls & H & F & L).
    exists calls. rewrite H, invocations_writerow. auto.
Qed.

End InvocationFacts.

(** ** The snippet of the output *)

Lemma length_substring_le (n : nat) : ∀ s, (String.length (substring 0 n s) <= n)%nat.
Proof.
  induction n as [|n IH]; intros s; destruct s as [|c s]; simpl; try lia.
  specialize (IH s). lia.
Qed.

Lemma length_replace_char (old new : ascii) (s : string) :
  String.length (replace_char old new s) = String.length s.
Proof. induction s as [|c s IH]; simpl; [reflexivity | now rewrite IH]. Qed.

Lemma substring_all (s : string) :
  ∀ n, (String.length s <= n)%nat → substring 0 n s = s.
Proof.
  induction s as [|c s IH]; intros n Hn; destruct n as [|n]; simpl in *; try reflexivity;
    [lia|]. rewrite IH; [reflexivity | lia].
Qed.

(** X17: the snippet computed from an output is one line of at most 403
    characters, and the output itself when that is one line of at most 400
    characters. *)
Theorem snippet_one_line (sim_out : string) :
  (String.length (snippet_of sim_out) <= 403)%nat
  ∧ has_char Chr.LF (snippet_of sim_out) = false
  ∧ ((String.length sim_out <= 400)%nat → has_char Chr.LF sim_out = false →
     snippet_of sim_out = sim_out).
Proof.
  unfold snippet_of. split; [|split].
  - rewrite length_app_s, length_replace_char.
    pose proof (length_substring_le 400 sim_out).
    destruct (400 <? String.length sim_out)%nat; simpl; lia.
  - rewrite has_char_app, has_char_replaced by reflexivity.
    now destruct (400 <? String.length sim_out)%nat.
  - intros Hl Hc. rewrite (substring_all sim_out 400 Hl), (replace_char_absent _ _ _ Hc).
    apply Nat.ltb_ge in Hl. rewrite Hl. apply app_nil_r_s.
Qed.

(** ** The matcher on a pattern that succeeds at the first try *)

Lemma take_drop_while (P : ascii → bool) (s : string) :
  s = take_while P s +:+ drop_while P s.
Proof.
  induction s as [|c s IH]; simpl; [reflexivity|].
  destruct (P c); simpl; [now rewrite <- IH | reflexivity].
Qed.

Lemma take_drop_one (P : ascii → bool) (s : string) : s = take_one P s +:+ drop_one P s.
Proof. destruct s as [|c s]; simpl; [reflexivity|]. now destruct (P c). Qed.

Section Forward.
Context {A : Type}.
Variable f : flags.

Lemma star_greedy_run (k : cls) (s : string) :
  ∀ prev (kont : option ascii → string → option A) x,
    kont (last_char prev (take_while (mem f k) s)) (drop_while (mem f k) s) = Some x →
    star_greedy f k prev s kont = Some x.
Proof.
  induction s as [|c s IH]; intros prev kont x H; simpl in *; [exact H|].
  destruct (mem f k c); simpl in H; [|exact H].
  now rewrite (IH _ _ _ H).
Qed.

Lemma star_greedy_constant (k : cls) (s : string) :
  ∀ prev (kont : option ascii → string → option A) x,
    (∀ p s', kont p s' = Some x) → star_greedy f k prev s kont = Some x.
Proof. intros prev kont x H. apply star_greedy_run, H. Qed.

Lemma exec_opt_lit (c : ascii) (prev : option ascii) (s : string) (g : option string)
    (kont : option ascii → string → option string → option A) (x : A) :
  kont (last_char prev (take_one (eq_char f c) s)) (drop_one (eq_char f c) s) g = Some x →
  exec f (Opt (Lit c)) prev s g kont = Some x.
Proof.
  intros H. simpl. destruct s as [|d s]; simpl in *; [exact H|].
  destruct (eq_char f c d); simpl in H; now rewrite H.
Qed.

Lemma exec_opt_cls (k : cls) (prev : option ascii) (s : string) (g : option string)
    (kont : option ascii → string → option string → option A) (x : A) :
  kont (last_char prev (take_one (mem f k) s)) (drop_one (mem f k) s) g = Some x →
  exec f (Opt (Cls k)) prev s g kont = Some x.
Proof.
  intros H. simpl. destruct s as [|d s]; simpl in *; [exact H|].
  destruct (mem f k d); simpl in H; now rewrite H.
Qed.

End Forward.

Lemma exec_lits_ci {A : Type} (p : string) :
  ∀ w prev s g (kont : option ascii → string → option string → option A),
    ci_equal p w = true →
    exec I (lits p) prev (w +:+ s) g kont = kont (last_char prev w) s g.
Proof.
  induction p as [|a p IH]; intros w prev s g kont H; destruct w as [|b w];
    simpl in *; try discriminate; [reflexivity|].
  apply andb_true_iff in H as [Hab Hw]. rewrite Hab. now apply IH.
Qed.

(** After the number only optional text follows: the rest of the pattern
    succeeds and keeps the capture. *)
Lemma tail_accepts (prev : option ascii) (s : string) (g : option string) :
  exec I (Star Space ⋅ Opt (Lit "%")) prev s g accept = Some {| group1 := g |}.
Proof.
  simpl. apply star_greedy_constant. intros p s'.
  destruct s' as [|d s']; [reflexivity|]. now destruct (eq_char I "%" d).
Qed.

Lemma longest_numeral_split (s : string) :
  ∃ rest, s = longest_numeral s +:+ rest.
Proof.
  unfold longest_numeral. pose proof (take_drop_while Chr.is_digit s) as E.
  destruct (drop_while Chr.is_digit s) as [|c r] eqn:Ed; [eauto|].
  destruct (Ascii.eqb c "." && starts_with Chr.is_digit r) eqn:Ec; [|eauto].
  apply andb_true_iff in Ec as [Hc _]. apply Ascii.eqb_eq in Hc as ->.
  exists (drop_while Chr.is_digit r). rewrite app_assoc_s. simpl.
  now rewrite <- (take_drop_while Chr.is_digit r).
Qed.

Lemma longest_numeral_digit (d : ascii) (s1 : string) :
  Chr.is_digit d = true →
  longest_numeral (String d s1)
  = match drop_while Chr.is_digit s1 with
    | String c r =>
        if Ascii.eqb c "." && starts_with Chr.is_digit r
        then String d (take_while Chr.is_digit s1 +:+ String "." (take_while Chr.is_digit r))
        else String d (take_while Chr.is_digit s1)
    | EmptyString => String d (take_while Chr.is_digit s1)
    end.
Proof.
  intros Hd. unfold longest_numeral. simpl. rewrite Hd.
  destruct (drop_while Chr.is_digit s1) as [|c r]; [reflexivity|].
  now destruct (Ascii.eqb c "." && starts_with Chr.is_digit r).
Qed.

Lemma number_finish (s s' : string) (p : option ascii) :
  s = longest_numeral s +:+ s' →
  exec I (Star Space ⋅ Opt (Lit "%")) p s' (Some (consumed s s')) accept
  = Some {| group1 := Some (longest_numeral s) |}.
Proof. intros E. rewrite tail_accepts. rewrite E at 1. now rewrite consumed_app. Qed.

(** At a digit the number pattern captures the longest numeral. *)
Lemma exec_number_here (prev : option ascii) (s : string) (g : option string) :
  starts_with Chr.is_digit s = true →
  exec I (number ⋅ Star Space ⋅ Opt (Lit "%")) prev s g accept
  = Some {| group1 := Some (longest_numeral s) |}.
Proof.
  intros Hs. destruct s as [|d s1]; [discriminate|]. cbn [starts_with] in Hs.
  change (exec I (number ⋅ Star Space ⋅ Opt (Lit "%")) prev (String d s1) g accept)
    with (if mem I Digit d
          then star_greedy I Digit (Some d) s1
                 (fun p s' =>
                    match
                      exec I (Lit "." ⋅ Plus Digit) p s' g
                        (fun p' s'' _ =>
                           exec I (Star Space ⋅ Opt (Lit "%")) p' s''
                             (Some (consumed (String d s1) s'')) accept)
                    with
                    | Some x => Some x
                    | None =>
                        exec I (Star Space ⋅ Opt (Lit "%")) p s'
                          (Some (consumed (String d s1) s')) accept
                    end)
          else None).
  change (mem I Digit d) with (Chr.is_digit d). rewrite Hs.
  apply star_greedy_run. change (mem I Digit) with Chr.is_digit.
  pose proof (longest_numeral_digit d s1 Hs) as EN.
  pose proof (take_drop_while Chr.is_digit s1) as E1.
  set (p1 := last_char (Some d) (take_while Chr.is_digit s1)) in *.
  destruct (drop_while Chr.is_digit s1) as [|c r] eqn:Ed.
  - change (exec I (Lit "." ⋅ Plus Digit) p1 "" g _) with (@None match_obj).
    apply number_finish. rewrite EN. simpl. now rewrite E1 at 1.
  - destruct (Ascii.eqb c ".") eqn:Hc.
    + apply Ascii.eqb_eq in Hc. subst c. destruct r as [|d2 r2].
      * change (exec I (Lit "." ⋅ Plus Digit) p1 (String "." "") g _) with (@None match_obj).
        apply number_finish. rewrite EN. simpl. now rewrite E1 at 1.
      * cbn [andb starts_with] in EN.
        change (exec I (Lit "." ⋅ Plus Digit) p1 (String "." (String d2 r2)) g ?k)
          with (if mem I Digit d2
                then star_greedy I Digit (Some d2) r2 (fun p' s'' => k p' s'' g)
                else None).
        change (mem I Digit d2) with (Chr.is_digit d2).
        destruct (Chr.is_digit d2) eqn:Hd2.
        -- rewrite (star_greedy_run I Digit r2 (Some d2) _
                      {| group1 := Some (longest_numeral (String d s1)) |});
             [reflexivity|].
           change (mem I Digit) with Chr.is_digit. apply number_finish.
           rewrite EN. simpl. rewrite Hd2. rewrite E1 at 1. rewrite app_assoc_s. simpl.
           now rewrite <- (take_drop_while Chr.is_digit r2).
        -- apply number_finish. rewrite EN. simpl. now rewrite E1 at 1.
    + cbn [andb] in EN.
      assert (Hne : eq_char I "." c = false).
      { destruct (eq_char I "." c) eqn:He; [|reflexivity].
        apply eq_char_period in He. subst c. discriminate. }
      change (exec I (Lit "." ⋅ Plus Digit) p1 (String c r) g ?k)
        with (if eq_char I "." c then exec I (Plus Digit) (Some c) r g k else None).
      rewrite Hne. apply number_finish. rewrite EN. simpl. now rewrite E1 at 1.
Qed.

(** At [win percentage] followed by the start of a number the last-resort
    pattern matches and captures the longest numeral there. *)
Lemma last_resort_here (prev : option ascii) (w tail rest : string) :
  ci_equal "win percentage" w = true → number_start tail = Some rest →
  exec I WINRATE_PATTERNS_0 prev (w +:+ tail) None accept
  = Some {| group1 := Some (longest_numeral rest) |}.
Proof.
  intros Hw Hn. unfold number_start in Hn.
  destruct (starts_with Chr.is_digit _) eqn:Hd; [|discriminate]. injection Hn as <-.
  unfold WINRATE_PATTERNS_0.
  change (exec I (lits "win percentage" ⋅ ?r) prev (w +:+ tail) None accept)
    with (exec I (lits "win percentage") prev (w +:+ tail) None
            (fun p s g => exec I r p s g accept)).
  rewrite (exec_lits_ci "win percentage" w prev tail None _ Hw).
  match goal with |- exec I (Opt (Lit ":") ⋅ ?r) ?p ?s ?g accept = _ =>
    change (exec I (Opt (Lit ":")) p s g (fun p' s' g' => exec I r p' s' g' accept) = 
            Some {| group1 := Some (longest_numeral
              (drop_while Chr.is_space (drop_one (one_of I ":=")
                 (drop_while Chr.is_space (drop_one (eq_char I ":") tail))))) |}) end.
  apply exec_opt_lit.
  match goal with |- exec I (Star Space ⋅ ?r) ?p ?s ?g accept = _ =>
    change (star_greedy I Space p s (fun p' s' => exec I r p' s' g accept) = 
            Some {| group1 := Some (longest_numeral
              (drop_while Chr.is_space (drop_one (one_of I ":=")
                 (drop_while Chr.is_space (drop_one (eq_char I ":") tail))))) |}) end.
  apply star_greedy_run. change (mem I Space) with Chr.is_space.
  match goal with |- exec I (Opt (Cls (OneOf ":=")) ⋅ ?r) ?p ?s ?g accept = _ =>
    change (exec I (Opt (Cls (OneOf ":="))) p s g (fun p' s' g' => exec I r p' s' g' accept) = 
            Some {| group1 := Some (longest_numeral
              (drop_while Chr.is_space (drop_one (one_of I ":=")
                 (drop_while Chr.is_space (drop_one (eq_char I ":") tail))))) |}) end.
  apply exec_opt_cls. change (mem I (OneOf ":=")) with (one_of I ":=").
  match goal with |- exec I (Star Space ⋅ ?r) ?p ?s ?g accept = _ =>
    change (star_greedy I Space p s (fun p' s' => exec I r p' s' g accept) = 
            Some {| group1 := Some (longest_numeral
              (drop_while Chr.is_space (drop_one (one_of I ":=")
                 (drop_while Chr.is_space (drop_one (eq_char I ":") tail))))) |}) end.
  apply star_greedy_run. change (mem I Space) with Chr.is_space.
  now apply exec_number_here.
Qed.

(** ** The leftmost win percentage *)

Lemma search_from_here (f : flags) (r : re) (prev : option ascii) (s : string) (m : match_obj) :
  exec f r prev s None accept = Some m → search_from f r prev s = Some m.
Proof. intros H. destruct s; simpl; now rewrite H. Qed.

Lemma no_start_sound (f : flags) (r : re) (pre : string) :
  ∀ prev rest, no_start f r prev pre rest = true →
    ∀ a b, pre = a +:+ b → b ≠ "" → ¬ starts_here f r (last_char prev a) (b +:+ rest).
Proof.
  induction pre as [|c pre IH]; intros prev rest H a b E Hb Hst.
  - symmetry in E. apply app_eq_nil_s in E as [_ ->]. now apply Hb.
  - cbn [no_start] in H.
    destruct (exec f r prev (String c pre +:+ rest) None accept) eqn:Ex; [discriminate|].
    destruct a as [|x a]; simpl in E.
    + subst b. apply starts_here_exec in Hst. simpl in Hst. now apply Hst.
    + injection E as <- E. apply (IH _ _ H a b E Hb Hst).
Qed.

(** A match of the last-resort pattern in the text with its commas turned
    into periods starts a match in the text itself. *)
Lemma starts_here_replace (prev prev' : option ascii) (s : string) :
  starts_here I WINRATE_PATTERNS_0 prev (replace_char "," "." s) →
  starts_here I WINRATE_PATTERNS_0 prev' s.
Proof.
  intros (u & rest & g & E & H).
  destruct (shortens_last_resort _ _ _ _ _ H) as (u1 & u2 & h & -> & H1 & Hc).
  rewrite app_assoc_s in E.
  apply replace_char_app_inv in E as (v1 & rest' & -> & Hv & _).
  assert (Ev : v1 = u1).
  { rewrite <- Hv. symmetry. apply replace_char_id. now rewrite Hv. }
  subst v1. exists u1, rest', h. split; [reflexivity|].
  eapply matches_context; [reflexivity | exact H1].
Qed.

Lemma number_start_digit (tail rest : string) :
  number_start tail = Some rest → starts_with Chr.is_digit rest = true.
Proof.
  unfold number_start. intros H.
  destruct (starts_with Chr.is_digit _) eqn:Hd; [|discriminate]. now injection H as <-.
Qed.

(** The search stops at the first [win percentage] that a number follows,
    and captures the longest numeral there. *)
Lemma leftmost_last_resort (prev : option ascii) (pre w tail rest : string) :
  ci_equal "win percentage" w = true → number_start tail = Some rest →
  (∀ a b, pre = a +:+ b → b ≠ "" →
     ¬ starts_here I WINRATE_PATTERNS_0 (last_char prev a) (b +:+ w +:+ tail)) →
  search_from I WINRATE_PATTERNS_0 prev (pre +:+ w +:+ tail)
  = Some {| group1 := Some (longest_numeral rest) |}.
Proof.
  intros Hw Hn Hleft. rewrite (search_from_skip I WINRATE_PATTERNS_0 pre prev _ Hleft).
  now apply search_from_here, last_resort_here.
Qed.

Lemma leftmost_numeral (tail rest : string) :
  number_start tail = Some rest → numeral (longest_numeral rest).
Proof.
  intros Hn.
  pose proof (last_resort_here None "win percentage" tail rest eq_refl Hn) as Hx.
  apply exec_sound in Hx as (u & s' & g' & _ & Hm & Hk).
  apply (captures_numeral_last_resort I) in Hm as (n & -> & Hnum).
  unfold accept in Hk. now injection Hk as ->.
Qed.

(** The extraction on a text that does not mention the player: the
    longest numeral after the first [win percentage] that a number
    follows. *)
Lemma leftmost_percentage_match (text : string) (player : Z) (pre w tail rest : string) :
  ¬ occurs I (player_tag player) text →
  replace_char "," "." text = pre +:+ w +:+ tail →
  ci_equal "win percentage" w = true → number_start tail = Some rest →
  (∀ a b, pre = a +:+ b → b ≠ "" →
     ¬ starts_here I WINRATE_PATTERNS_0 (last_char None a) (b +:+ w +:+ tail)) →
  parse_winrate text player = winrate_of_match {| group1 := Some (longest_numeral rest) |}.
Proof.
  intros Hp E Hw Hn Hleft. rewrite (untagged_last_resort text player Hp).
  destruct (String.eqb_spec text "") as [->|_].
  { simpl in E. symmetry in E. apply app_eq_nil_s in E as [_ E].
    apply app_eq_nil_s in E as [-> _]. discriminate Hw. }
  unfold search. now rewrite E, (leftmost_last_resort None pre w tail rest Hw Hn Hleft).
Qed.

Lemma leftmost_percentage (text : string) (player : Z) (pre w tail rest : string) :
  ¬ occurs I (player_tag player) text →
  replace_char "," "." text = pre +:+ w +:+ tail →
  ci_equal "win percentage" w = true → number_start tail = Some rest →
  (∀ a b, pre = a +:+ b → b ≠ "" →
     ¬ starts_here I WINRATE_PATTERNS_0 (last_char None a) (b +:+ w +:+ tail)) →
  ∃ val, float_of_str (longest_numeral rest) = Returned val
    ∧ parse_winrate text player = Returned (Some (normalize val)).
Proof.
  intros Hp E Hw Hn Hleft.
  rewrite (leftmost_percentage_match text player pre w tail rest Hp E Hw Hn Hleft).
  apply winrate_of_match_numeral; [reflexivity | now apply (leftmost_numeral tail)].
Qed.

(** No pattern starts before, in the text or in the text with its commas
    turned into periods. *)
Lemma none_starts_replace (pre rest : string) :
  (∀ a b, pre = a +:+ b → b ≠ "" →
     ¬ starts_here I WINRATE_PATTERNS_0 (last_char None a) (b +:+ rest)) →
  ∀ a b, replace_char "," "." pre = a +:+ b → b ≠ "" →
    ¬ starts_here I WINRATE_PATTERNS_0 (last_char None a)
        (b +:+ replace_char "," "." rest).
Proof.
  intros H a b E Hb Hst.
  apply replace_char_app_inv in E as (a' & b' & -> & <- & <-).
  rewrite <- replace_char_app in Hst.
  apply (H a' b' eq_refl).
  - intros ->. now apply Hb.
  - eapply starts_here_replace. exact Hst.
Qed.

Lemma take_while_none (P : ascii → bool) (s : string) :
  starts_with P s = false → take_while P s = "".
Proof. destruct s as [|c s]; simpl; [reflexivity|]. now intros ->. Qed.

Lemma starts_with_digit_replace (s : string) :
  starts_with Chr.is_digit (replace_char "," "." s) = starts_with Chr.is_digit s.
Proof.
  destruct s as [|c s]; simpl; [reflexivity|].
  destruct (Ascii.eqb_spec c ",") as [->|]; reflexivity.
Qed.

(** The three stages of [parse_winrate], as the match that decides. *)
Lemma parse_winrate_decisive (text : string) (player : Z) :
  parse_winrate text player
  = match decisive_match (replace_char "," "." text) player with
    | Some m => winrate_of_match m
    | None => Returned None
    end.
Proof.
  unfold parse_winrate, decisive_match.
  destruct (String.eqb_spec text "") as [->|_]; [reflexivity|].
  destruct (scan_lines _ _); [reflexivity|].
  now destruct (search I_S _ _).
Qed.

Lemma decisive_numeral (text_norm : string) (player : Z) (m : match_obj) :
  decisive_match text_norm player = Some m → ∃ num, group1 m = Some num ∧ numeral num.
Proof.
  unfold decisive_match. intros H.
  destruct (scan_lines player (splitlines text_norm)) as [m1|] eqn:Es.
  { injection H as ->. apply scan_lines_some in Es as (line & _ & _ & Hw).
    apply search_from_sound in Hw as (pre & u & post & _ & Hm).
    now apply (captures_numeral_win_re I) in Hm. }
  destruct (search I_S (combined_re player) text_norm) as [m2|] eqn:Ec.
  { injection H as ->.
    apply search_from_sound in Ec as (pre & u & post & _ & Hm).
    now apply (captures_numeral_combined I_S player) in Hm. }
  apply search_from_sound in H as (pre & u & post & _ & Hm).
  now apply (captures_numeral_last_resort I) in Hm.
Qed.

(** ** The number that decides *)

(** C5 as stated fails: the first text below contains
    [win percentage=45,5%] and the extraction yields 0.1, the value of the
    win percentage that comes first in the text; so does the second for
    player 1, whom only its second line mentions; the third contains
    [win percentage: 0.8] and yields 0.85, the numeral going on. *)
Lemma earlier_percentage_decides :
  "win percentage: 10% then win percentage=45,5%"
    = "win percentage: 10% then " +:+ "win percentage=45,5%" +:+ ""
  ∧ parse_winrate "win percentage: 10% then win percentage=45,5%" 1
    = Returned (Some 0.1%float)
  ∧ parse_winrate "win percentage: 10% then win percentage=45,5%" 1
    ≠ Returned (Some 0.455%float)
  ∧ parse_winrate ("win percentage=45,5%" +:+ LF_s +:+ "Player 1 win percentage: 10%") 1
    = Returned (Some 0.1%float)
  ∧ parse_winrate ("win percentage: 0.8" +:+ "5") 1 = Returned (Some 0.85%float).
Proof.
  split; [reflexivity|]. split; [vm_compute; reflexivity|]. split.
  - intros H.
    apply (f_equal (fun r => match r with
                             | Returned (Some x) => PrimFloat.ltb x 0.2
                             | _ => false
                             end)) in H.
    vm_compute in H. discriminate.
  - split; vm_compute; reflexivity.
Qed.

(** C5, amended: the commas of the text are turned into periods first;
    the number returned is the value of the numeral captured by the match
    that decides (the first stage of the three that finds one), divided by
    100 when it is above 1.0 and as it is otherwise, for numerals with and
    without a fraction; without a match the answer is "unknown". So the
    answer is 0.455 when the match that decides captures [45.5], and 0.8
    when it captures [0.8]. That is the case in a text that does not
    mention the player and in which no win-percentage pattern starts
    before: there [win percentage=45,5%] yields 0.455, whatever comes
    after, and [win percentage: 0.8] yields 0.8 when no digit comes right
    after. Alone, the two texts yield 0.455 and 0.8 for every player. *)
Theorem matched_number_normalized :
  (∀ text player,
     match decisive_match (replace_char "," "." text) player with
     | None => parse_winrate text player = Returned None
     | Some m =>
         ∃ num val,
           group1 m = Some num ∧ numeral num ∧ float_of_str num = Returned val
           ∧ parse_winrate text player
             = Returned (Some (if PrimFloat.ltb 1 val then PrimFloat.div val 100 else val))
     end)
  ∧ (∀ text player m,
       decisive_match (replace_char "," "." text) player = Some m →
       (group1 m = Some "45.5" →
        parse_winrate text player = Returned (Some 0.455%float))
       ∧ (group1 m = Some "0.8" →
          parse_winrate text player = Returned (Some 0.8%float)))
  ∧ (∀ pre post player,
       ¬ occurs I (player_tag player) (pre +:+ "win percentage=45,5%" +:+ post) →
       (∀ a b, pre = a +:+ b → b ≠ "" →
          ¬ starts_here I WINRATE_PATTERNS_0 (last_char None a)
              (b +:+ "win percentage=45,5%" +:+ post)) →
       parse_winrate (pre +:+ "win percentage=45,5%" +:+ post) player
       = Returned (Some 0.455%float))
  ∧ (∀ pre post player,
       ¬ occurs I (player_tag player) (pre +:+ "win percentage: 0.8" +:+ post) →
       (∀ a b, pre = a +:+ b → b ≠ "" →
          ¬ starts_here I WINRATE_PATTERNS_0 (last_char None a)
              (b +:+ "win percentage: 0.8" +:+ post)) →
       starts_with Chr.is_digit post = false →
       parse_winrate (pre +:+ "win percentage: 0.8" +:+ post) player
       = Returned (Some 0.8%float))
  ∧ (∀ player, parse_winrate "win percentage=45,5%" player = Returned (Some 0.455%float))
  ∧ (∀ player, parse_winrate "win percentage: 0.8" player = Returned (Some 0.8%float))
  ∧ (∀ player, parse_winrate "win percentage: 73" player = Returned (Some 0.73%float))
  ∧ (∀ player, parse_winrate "win percentage: 1" player = Returned (Some 1%float)).
Proof.
  split.
  { intros text player. rewrite parse_winrate_decisive.
    destruct (decisive_match _ player) as [m|] eqn:Ed; [|reflexivity].
    destruct (decisive_numeral _ _ _ Ed) as (num & Hg & Hn).
    destruct (winrate_of_match_numeral m num Hg Hn) as (val & Hv & Hr).
    exists num, val. auto. }
  split.
  { intros text player m Ed. rewrite parse_winrate_decisive, Ed.
    unfold winrate_of_match, float_of_group.
    split; intros ->; vm_compute; reflexivity. }
  split.
  { intros pre post player Hp Hleft.
    rewrite (leftmost_percentage_match _ player (replace_char "," "." pre) "win percentage"
               ("=45.5%" +:+ replace_char "," "." post)
               ("45.5%" +:+ replace_char "," "." post) Hp).
    - vm_compute. reflexivity.
    - now rewrite replace_char_app.
    - reflexivity.
    - reflexivity.
    - apply (none_starts_replace pre ("win percentage=45,5%" +:+ post) Hleft). }
  split.
  { intros pre post player Hp Hleft Hpost.
    rewrite (leftmost_percentage_match _ player (replace_char "," "." pre) "win percentage"
               (": 0.8" +:+ replace_char "," "." post)
               ("0.8" +:+ replace_char "," "." post) Hp).
    - assert (E : longest_numeral ("0.8" +:+ replace_char "," "." post) = "0.8").
      { unfold longest_numeral. simpl.
        now rewrite take_while_none by (now rewrite starts_with_digit_replace). }
      rewrite E. vm_compute. reflexivity.
    - now rewrite replace_char_app.
    - reflexivity.
    - reflexivity.
    - apply (none_starts_replace pre ("win percentage: 0.8" +:+ post) Hleft). }
  repeat split; intros player; vm_compute; reflexivity.
Qed.

Lemma matched_number_normalized_witness :
  parse_winrate "Result: win percentage=45,5% (100 games)" 7 = Returned (Some 0.455%float)
  ∧ parse_winrate "Result, win percentage: 0.8 (100 games)" 7 = Returned (Some 0.8%float).
Proof.
  destruct matched_number_normalized as (_ & _ & H1 & H2 & _). split.
  - apply (H1 "Result: " " (100 games)" 7%Z).
    + intros H. apply occurs_search in H. now apply H.
    + apply no_start_sound. vm_compute. reflexivity.
  - apply (H2 "Result, " " (100 games)" 7%Z).
    + intros H. apply occurs_search in H. now apply H.
    + apply no_start_sound. vm_compute. reflexivity.
    + reflexivity.
Defined.

(** X3: when the text mentions neither of two players, both get the same
    answer, the first win percentage of the text, whoever it is about: the
    result of the search of the last-resort pattern in the text with its
    commas turned into periods. That is, where the first [win percentage]
    (in any case) that a number follows stands, after the optional ':',
    whitespace and ':' or '=', the longest numeral there is read and
    normalized. *)
Theorem untagged_text_first_percentage (text : string) (p q : Z) :
  ¬ occurs I (player_tag p) text → ¬ occurs I (player_tag q) text →
  parse_winrate text p = parse_winrate text q
  ∧ parse_winrate text p
    = match search I WINRATE_PATTERNS_0 (replace_char "," "." text) with
      | Some m => winrate_of_match m
      | None => Returned None
      end
  ∧ (∀ pre w tail rest,
       replace_char "," "." text = pre +:+ w +:+ tail →
       ci_equal "win percentage" w = true →
       number_start tail = Some rest →
       (∀ a b, pre = a +:+ b → b ≠ "" →
          ¬ starts_here I WINRATE_PATTERNS_0 (last_char None a) (b +:+ w +:+ tail)) →
       ∃ val, float_of_str (longest_numeral rest) = Returned val
         ∧ parse_winrate text p = Returned (Some (normalize val))
         ∧ parse_winrate text q = Returned (Some (normalize val))).
Proof.
  intros Hp Hq.
  assert (E : parse_winrate text p = parse_winrate text q).
  { now rewrite (untagged_last_resort text p Hp), (untagged_last_resort text q Hq). }
  split; [exact E|]. split.
  - rewrite (untagged_last_resort text p Hp).
    destruct (String.eqb_spec text "") as [->|_]; reflexivity.
  - intros pre w tail rest Et Hw Hn Hleft.
    destruct (leftmost_percentage text p pre w tail rest Hp Et Hw Hn Hleft) as (val & Hv & Hr).
    exists val. rewrite <- E. auto.
Qed.

Lemma untagged_text_first_percentage_witness :
  parse_winrate "Winner: student_agent, Win Percentage: 40.5% of 10 runs" 1
  = parse_winrate "Winner: student_agent, Win Percentage: 40.5% of 10 runs" 2
  ∧ ∃ val, float_of_str "40.5" = Returned val
      ∧ parse_winrate "Winner: student_agent, Win Percentage: 40.5% of 10 runs" 1
        = Returned (Some (normalize val)).
Proof.
  assert (H : ∀ p, (p = 1 ∨ p = 2)%Z →
            ¬ occurs I (player_tag p) "Winner: student_agent, Win Percentage: 40.5% of 10 runs").
  { intros p [->| ->] H; apply occurs_search in H; now apply H. }
  destruct (untagged_text_first_percentage _ 1 2 (H _ (or_introl eq_refl)) (H _ (or_intror eq_refl)))
    as (E & _ & Hfirst).
  split; [exact E|].
  destruct (Hfirst "Winner: student_agent. " "Win Percentage" ": 40.5% of 10 runs"
              "40.5% of 10 runs" eq_refl eq_refl eq_refl) as (val & Hv & Hr & _).
  - apply no_start_sound. vm_compute. reflexivity.
  - exists val. split; [exact Hv | exact Hr].
Defined.
